(** * electron-simple-publisher: the Amazon S3 transport

    A shallow embedding of [lib/transport/s3.js] (class [S3Transport]) and
    the properties of its configuration normalisation, remote paths, build
    listing, build removal and bucket provisioning.

    Layout:
    - [Js]: the fragment of JavaScript values the transport's options use
      (truthiness, [typeof], member access, [Object.assign]) and thrown
      errors;
    - [JsString], [JsArray]: the string and array methods the class calls;
    - [Regex]: regular expressions with a derivative matcher, for the
      pattern literal of [fetchBuildsList];
    - [NodePath]: Node's [path.basename] and [path.posix.join];
    - [Aws]: the calls the transport makes on the S3 client;
    - [Promise]: promises over these calls, with [then] and [catch];
    - [S3Transport]: the class itself, method by method;
    - [EventLoop]: the interleavings of public operations with the
      provider's answers, for the ordering properties;
    - [Vocabulary]: the notions the properties are stated with;
    - the properties, by method. *)

From Stdlib Require Import String Ascii List ZArith Lia Bool.
From stdpp Require Import gmap strings list fin_maps pretty.
Import ListNotations.

Set Default Proof Using "Type".
Set Warnings "-register-all".

Open Scope list_scope.

(* ===================================================================== *)
(** ** JavaScript values and exceptions *)
(* ===================================================================== *)

Module Js.

(** Values found in the publisher's configuration (it is read from a JSON
    file or built by a caller).  Numbers are integers here: the code only
    tests them for truthiness. *)
Inductive value : Type :=
| VUndefined
| VNull
| VBool (b : bool)
| VNum (n : Z)
| VStr (s : string)
| VObj (o : gmap string value).

(** An object literal or a plain object: own enumerable properties. *)
Abbreviation object := (gmap string value).

(** What [throw] carries and what a promise is rejected with. *)
Inductive error : Type :=
| Error (message : string)          (* [new Error(message)] *)
| TypeError (message : string)      (* raised by the language itself *)
| ServiceError (code : string).     (* a failure reported by the S3 client *)

(** The outcome of running a synchronous piece of code. *)
Inductive result (A : Type) : Type :=
| Ok (a : A)
| Throw (e : error).
Arguments Ok {A} a.
Arguments Throw {A} e.

(** Sequencing stops at the first [throw]. *)
#[export] Instance result_bind : MBind result := fun A B f m =>
  match m with
  | Ok a => f a
  | Throw e => Throw e
  end.
#[export] Instance result_ret : MRet result := fun A a => Ok a.

(** [ToBoolean]: what [!v] and [if (v)] look at. *)
Definition truthy (v : value) : bool :=
  match v with
  | VUndefined | VNull => false
  | VBool b => b
  | VNum n => negb (n =? 0)%Z
  | VStr s => negb (s =? "")%string
  | VObj _ => true
  end.

(** [typeof v === 'string'] *)
Definition typeof_is_string (v : value) : bool :=
  match v with
  | VStr _ => true
  | _ => false
  end.

(** [o[name]] on an object: a missing property reads as [undefined]. *)
Definition get (o : object) (name : string) : value :=
  default VUndefined (o !! name).

(** [v.name] for a [name] that is on no built-in prototype (this file
    only reads [Bucket]): objects look the property up, [undefined] and
    [null] raise, the other primitives answer [undefined]. *)
Definition member (v : value) (name : string) : result value :=
  match v with
  | VObj o => Ok (get o name)
  | VUndefined =>
      Throw (TypeError ("Cannot read property '" +:+ name +:+ "' of undefined"))
  | VNull =>
      Throw (TypeError ("Cannot read property '" +:+ name +:+ "' of null"))
  | VBool _ | VNum _ | VStr _ => Ok VUndefined
  end.

(** [`${v}`]: ToString, for integers below 10^21 in size and objects
    that keep [Object.prototype.toString]. *)
Definition ToString (v : value) : string :=
  match v with
  | VUndefined => "undefined"
  | VNull => "null"
  | VBool b => if b then "true" else "false"
  | VNum n => pretty n
  | VStr s => s
  | VObj _ => "[object Object]"
  end.

(** [Object.assign(target, source)] for a source that is an object or is
    absent: every own property of the source overwrites the target's;
    a missing source is skipped. *)
Definition Object_assign (target : object) (source : option object) : object :=
  match source with
  | Some src => src ∪ target
  | None => target
  end.

(** [for (const x of xs) { body(x) }] where the body may throw. *)
Fixpoint for_of {A} (xs : list A) (body : A -> result unit) : result unit :=
  match xs with
  | [] => Ok tt
  | x :: rest => _ ← body x; for_of rest body
  end.

End Js.

Export Js.

(* ===================================================================== *)
(** ** Strings and arrays: the built-in methods the transport calls *)
(* ===================================================================== *)

Module JsString.

(** Strings are sequences of code units ([ascii] here). *)

(** [s.startsWith(prefix)] *)
Definition startsWith (s prefix : string) : bool := String.prefix prefix s.

(** [s.split(sep)] for a one-character separator: the pieces between the
    separators, so one piece more than there are separators.
    [split_go sep cur s] scans [s] with the current piece [cur]
    (reversed) in hand. *)
Fixpoint split_go (sep : ascii) (cur : string) (s : string) : list string :=
  match s with
  | EmptyString => [String.rev cur]
  | String c s' =>
      if Ascii.eqb c sep
      then String.rev cur :: split_go sep EmptyString s'
      else split_go sep (String c cur) s'
  end.

Definition split (sep : ascii) (s : string) : list string :=
  split_go sep EmptyString s.

(** [xs.join(sep)] *)
Fixpoint join (sep : string) (xs : list string) : string :=
  match xs with
  | [] => ""
  | [x] => x
  | x :: rest => x +:+ sep +:+ join sep rest
  end.

(** Every code unit of [s] satisfies [p]. *)
Fixpoint all (p : ascii -> bool) (s : string) : bool :=
  match s with
  | EmptyString => true
  | String c s' => p c && all p s'
  end.

(** The last code unit is [c] ([s.charCodeAt(s.length - 1) === c]). *)
Fixpoint ends_with_char (c : ascii) (s : string) : bool :=
  match s with
  | EmptyString => false
  | String x EmptyString => Ascii.eqb x c
  | String _ s' => ends_with_char c s'
  end.

End JsString.

Module JsArray.

(** [xs[i]]: [undefined] out of range, hence an option. *)
Definition at_index {A} (xs : list A) (i : nat) : option A := xs !! i.

(** [self.indexOf(item)]: the first position holding [item] (strict
    equality), or -1. *)
Fixpoint indexOf (self : list string) (item : string) : Z :=
  match self with
  | [] => (-1)%Z
  | x :: rest =>
      if String.eqb x item then 0%Z
      else let i := indexOf rest item in
           if (i <? 0)%Z then (-1)%Z else (i + 1)%Z
  end.

(** [xs.filter((item, pos, self) => f(item, pos, self))]: the callback
    also receives the position and the whole array. *)
Fixpoint filter_from {A} (f : A -> nat -> list A -> bool)
    (self : list A) (pos : nat) (xs : list A) : list A :=
  match xs with
  | [] => []
  | x :: rest =>
      if f x pos self
      then x :: filter_from f self (S pos) rest
      else filter_from f self (S pos) rest
  end.

Definition filter_indexed {A} (f : A -> nat -> list A -> bool) (xs : list A) : list A :=
  filter_from f xs 0 xs.

End JsArray.

(* ===================================================================== *)
(** ** Regular expressions *)
(* ===================================================================== *)

Module Regex.

(** Patterns without captures or look-around.  [Class p] is one code
    unit in the set [p]: a literal, an escape such as [\w], or a bracket
    class. *)
Inductive regex : Type :=
| Void                                  (* matches nothing *)
| Eps                                   (* matches the empty string *)
| Class (p : ascii -> bool)
| Seq (r1 r2 : regex)
| Alt (r1 r2 : regex)
| Star (r : regex).

(** [r+] *)
Definition Plus (r : regex) : regex := Seq r (Star r).

(** A literal character. *)
Definition Lit (c : ascii) : regex := Class (Ascii.eqb c).

(** [\w] without the [i] and [u] flags: [[A-Za-z0-9_]]. *)
Definition word_char (c : ascii) : bool :=
  let n := N_of_ascii c in
  ((65 <=? n) && (n <=? 90) || (97 <=? n) && (n <=? 122)
   || (48 <=? n) && (n <=? 57) || (n =? 95))%N.

(** [[\w.]] *)
Definition word_or_dot_char (c : ascii) : bool :=
  word_char c || Ascii.eqb c "."%char.

(** The language of a pattern. *)
Inductive Matches : regex -> string -> Prop :=
| MEps : Matches Eps ""
| MClass p c : p c = true -> Matches (Class p) (String c "")
| MSeq r1 r2 s1 s2 :
    Matches r1 s1 -> Matches r2 s2 -> Matches (Seq r1 r2) (s1 +:+ s2)
| MAltL r1 r2 s : Matches r1 s -> Matches (Alt r1 r2) s
| MAltR r1 r2 s : Matches r2 s -> Matches (Alt r1 r2) s
| MStarNil r : Matches (Star r) ""
| MStarApp r s1 s2 :
    Matches r s1 -> Matches (Star r) s2 -> Matches (Star r) (s1 +:+ s2).

(** Matching by derivatives. *)
Fixpoint nullable (r : regex) : bool :=
  match r with
  | Void => false
  | Eps => true
  | Class _ => false
  | Seq r1 r2 => nullable r1 && nullable r2
  | Alt r1 r2 => nullable r1 || nullable r2
  | Star _ => true
  end.

Fixpoint deriv (c : ascii) (r : regex) : regex :=
  match r with
  | Void | Eps => Void
  | Class p => if p c then Eps else Void
  | Seq r1 r2 =>
      if nullable r1
      then Alt (Seq (deriv c r1) r2) (deriv c r2)
      else Seq (deriv c r1) r2
  | Alt r1 r2 => Alt (deriv c r1) (deriv c r2)
  | Star r1 => Seq (deriv c r1) (Star r1)
  end.

(** [/^r$/.test(s)]: with both anchors and no [m] flag the whole of [s]
    has to match.  [s.match(/^r$/)] is an array (truthy) exactly then,
    and [null] otherwise. *)
Fixpoint test_anchored (r : regex) (s : string) : bool :=
  match s with
  | EmptyString => nullable r
  | String c s' => test_anchored (deriv c r) s'
  end.

End Regex.

(* ===================================================================== *)
(** ** Node's [path] module *)
(* ===================================================================== *)

Module NodePath.
Import JsString.

(** [path] is [path.posix] or [path.win32], by the host. *)
Inductive platform : Type := Posix | Win32.

Definition is_posix_separator (c : ascii) : bool := Ascii.eqb c "/"%char.
Definition is_win32_separator (c : ascii) : bool :=
  Ascii.eqb c "/"%char || Ascii.eqb c "\"%char.

(** [basename] scans the path from its end: separators at the very end
    are skipped, then the code units up to the separator before them are
    the base name.  Both functions below walk the reversed path. *)
Fixpoint skip_separators (is_sep : ascii -> bool) (rev_path : string) : string :=
  match rev_path with
  | EmptyString => EmptyString
  | String c rest =>
      if is_sep c then skip_separators is_sep rest else rev_path
  end.

Fixpoint last_component (is_sep : ascii -> bool) (rev_path : string)
    (acc : string) : string :=
  match rev_path with
  | EmptyString => acc
  | String c rest =>
      if is_sep c then acc else last_component is_sep rest (String c acc)
  end.

Definition basename_scan (is_sep : ascii -> bool) (path : string) : string :=
  last_component is_sep (skip_separators is_sep (String.rev path)) "".

(** [path.posix.basename(path)] *)
Definition posix_basename (path : string) : string :=
  basename_scan is_posix_separator path.

Definition is_windows_device_root (c : ascii) : bool :=
  let n := N_of_ascii c in
  ((65 <=? n) && (n <=? 90) || (97 <=? n) && (n <=? 122))%N.

(** [path.win32.basename(path)]: a drive prefix such as [C:] is left out
    of the scan. *)
Definition win32_basename (path : string) : string :=
  match path with
  | String d (String colon rest) =>
      if is_windows_device_root d && Ascii.eqb colon ":"%char
      then basename_scan is_win32_separator rest
      else basename_scan is_win32_separator path
  | _ => basename_scan is_win32_separator path
  end.

(** [path.basename(path)] on the given host. *)
Definition basename (host : platform) (path : string) : string :=
  match host with
  | Posix => posix_basename path
  | Win32 => win32_basename path
  end.

(** [normalizeString] of [path.posix], segment by segment; [res] is the
    stack of kept segments, last one first.  Empty and [.] segments are
    dropped; [..] removes the segment before it, or stays when there is
    none to remove and the path is relative. *)
Definition normalize_step (allowAboveRoot : bool) (res : list string)
    (segment : string) : list string :=
  if String.eqb segment "" || String.eqb segment "." then res
  else if String.eqb segment ".." then
    match res with
    | top :: below =>
        if String.eqb top ".."
        then (if allowAboveRoot then ".." :: res else res)
        else below
    | [] => if allowAboveRoot then [".."] else []
    end
  else segment :: res.

Definition normalizeString (path : string) (allowAboveRoot : bool) : string :=
  join "/" (rev (fold_left (normalize_step allowAboveRoot) (split "/" path) [])).

(** [path.posix.normalize(path)] *)
Definition posix_normalize (path : string) : string :=
  if String.eqb path "" then "." else
  let isAbsolute :=
    match path with String c _ => Ascii.eqb c "/"%char | _ => false end in
  let trailingSeparator := ends_with_char "/"%char path in
  let path := normalizeString path (negb isAbsolute) in
  let path :=
    if String.eqb path "" && negb isAbsolute then "." else path in
  let path :=
    if negb (String.eqb path "") && trailingSeparator then path +:+ "/" else path in
  if isAbsolute then "/" +:+ path else path.

(** [path.posix.join(...args)]: the non-empty arguments joined with [/],
    then normalised. *)
Definition posix_join (args : list string) : string :=
  match List.filter (fun arg => negb (String.eqb arg "")) args with
  | [] => "."
  | parts => posix_normalize (join "/" parts)
  end.

End NodePath.

(* ===================================================================== *)
(** ** The S3 client and promises *)
(* ===================================================================== *)

Module Aws.

(** An entry of a listing's [Contents]; only [Key] is read. *)
Record s3_object : Type := { Key : string }.

(** What a call of the client resolves with; only the [Contents] of a
    listing is read. *)
Record response : Type := { Contents : list s3_object }.

(** The [Body] of an upload. *)
Inductive body : Type :=
| ReadStream (filePath : string)         (* [fs.createReadStream(filePath)] *)
| Text (content : string).

(** The calls the transport makes, with their parameters. *)
Inductive request : Type :=
| headBucket (Bucket : value)
| createBucket (params : value)
| putObject (ACL : string) (Body : body) (Bucket : value) (Key : string)
| listObjectsV2 (Bucket : value)
| deleteObjects (Bucket : value) (Objects : list s3_object).

(** Put, list and delete: the calls that touch the bucket's contents. *)
Definition is_storage_access (r : request) : bool :=
  match r with
  | putObject _ _ _ _ | listObjectsV2 _ | deleteObjects _ _ => true
  | headBucket _ | createBucket _ => false
  end.

(** The existence check and the creation: bucket provisioning. *)
Definition is_provisioning (r : request) : bool :=
  match r with
  | headBucket _ | createBucket _ => true
  | _ => false
  end.

End Aws.

Module Promise.
Import Aws.

Inductive outcome (A : Type) : Type :=
| Fulfilled (a : A)
| Rejected (e : error).
Arguments Fulfilled {A} a.
Arguments Rejected {A} e.

(** A promise of the transport, by what it is waiting for:
    - [Settled o]: nothing, it has the outcome [o];
    - [Pending r k]: the client's answer to the call [r], which has been
      sent; [k] is what the promise becomes with that answer;
    - [AwaitQ k]: the instance's shared [this.q]; [k] is what the
      promise becomes once [this.q] is settled.
    A promise chained on [this.q] refers to it and does not hold a copy
    of it. *)
Inductive promise (A : Type) : Type :=
| Settled (o : outcome A)
| Pending (r : request) (k : outcome response -> promise A)
| AwaitQ (k : outcome response -> promise A).
Arguments Settled {A} o.
Arguments Pending {A} r k.
Arguments AwaitQ {A} k.

(** [p.then(onFulfilled)]: a rejection skips the callback. *)
Fixpoint then_ {A B} (p : promise A) (onFulfilled : A -> promise B) : promise B :=
  match p with
  | Settled (Fulfilled a) => onFulfilled a
  | Settled (Rejected e) => Settled (Rejected e)
  | Pending r k => Pending r (fun o => then_ (k o) onFulfilled)
  | AwaitQ k => AwaitQ (fun o => then_ (k o) onFulfilled)
  end.

(** [p.catch(onRejected)]: a fulfilment skips the callback. *)
Fixpoint catch_ {A} (p : promise A) (onRejected : error -> promise A) : promise A :=
  match p with
  | Settled (Fulfilled a) => Settled (Fulfilled a)
  | Settled (Rejected e) => onRejected e
  | Pending r k => Pending r (fun o => catch_ (k o) onRejected)
  | AwaitQ k => AwaitQ (fun o => catch_ (k o) onRejected)
  end.

(** A callback that returns a plain value or throws. *)
Definition of_result {A} (r : result A) : promise A :=
  match r with
  | Ok a => Settled (Fulfilled a)
  | Throw e => Settled (Rejected e)
  end.

(** [client.call(params).promise()]: the call is sent, the promise
    settles with its answer. *)
Definition send (r : request) : promise response := Pending r Settled.

(** The call a promise has just sent, if it is waiting for one. *)
Definition sending {A} (p : promise A) : list request :=
  match p with
  | Pending r _ => [r]
  | _ => []
  end.

(** Running a promise to its end against a provider that answers each
    call by [s3], with [this.q] settled as [q]: the calls sent, in order,
    and the outcome. *)
Fixpoint run {A} (s3 : request -> outcome response) (q : outcome response)
    (p : promise A) : list request * outcome A :=
  match p with
  | Settled o => ([], o)
  | Pending r k =>
      let '(calls, o) := run s3 q (k (s3 r)) in (r :: calls, o)
  | AwaitQ k => run s3 q (k q)
  end.

End Promise.

(* ===================================================================== *)
(** ** The transport *)
(* ===================================================================== *)

Module S3Transport.
Import JsString JsArray Regex NodePath Aws Promise.

(** [options.transport], the part of the publisher's configuration this
    class reads ([this.options]).  [aws] is an optional object;
    [bucket] is a string, an object, or absent ([VUndefined]). *)
Record transport_options : Type := {
  accessKeyId : value;
  secretAccessKey : value;
  aws : option object;
  bucket : value;
}.

(** The constructor's argument ([this.commandOptions]) with the two parts
    this class reads: [packageJson.name] and [transport]. *)
Record command_options : Type := {
  packageJson_name : string;
  transport : transport_options;
}.

(** [new AWS.S3({ apiVersion })]: the client takes the global
    configuration as it is when the client is made. *)
Record client : Type := {
  apiVersion : string;
  config : object;
}.

(** The fields of an instance. [s3] and [q] are unset until [init]. *)
Record instance : Type := {
  commandOptions : command_options;
  options : transport_options;
  s3 : option client;
  q : option (promise response);
}.

Definition option_not_set (name : string) : error :=
  Error ("The transport." +:+ name +:+ " option is not set").

(** The literal [awsAuth], lines 26-30. *)
Definition awsAuth (options : transport_options) : object :=
  {[ "accessKeyId" := accessKeyId options;
     "secretAccessKey" := secretAccessKey options;
     "signatureVersion" := VStr "v4" ]}.

(** [normalizeOptions()], lines 23-50.  The method rewrites
    [this.options] in place; here it returns the rewritten options. *)
Definition normalizeOptions (this_commandOptions : command_options)
    (options : transport_options) : result transport_options :=
  let options_aws := Object_assign (awsAuth options) (aws options) in
  _ ← for_of ["accessKeyId"; "secretAccessKey"] (fun name =>
        if negb (truthy (get options_aws name))
        then Throw (option_not_set name)
        else Ok tt);
  let options_bucket :=
    if negb (truthy (bucket options))
    then VStr (packageJson_name this_commandOptions +:+ "-updates")
    else bucket options in
  let options_bucket :=
    if typeof_is_string options_bucket
    then VObj {[ "Bucket" := options_bucket ]}
    else options_bucket in
  bucket_Bucket ← member options_bucket "Bucket";
  if negb (truthy bucket_Bucket)
  then Throw (option_not_set "bucket")
  else Ok {| accessKeyId := accessKeyId options;
             secretAccessKey := secretAccessKey options;
             aws := Some options_aws;
             bucket := options_bucket |}.

(** [constructor(options)], lines 18-21: the base class keeps [options]
    as [this.commandOptions] and [options.transport] as [this.options];
    then the options are normalised. *)
Definition constructor (options : command_options) : result instance :=
  normalized ← normalizeOptions options (transport options);
  Ok {| commandOptions := options;
        options := normalized;
        s3 := None;
        q := None |}.

(** [this.options.bucket.Bucket] *)
Definition options_bucket_Bucket (this : instance) : result value :=
  member (bucket (options this)) "Bucket".

(** [this.s3.method] before the call is made: [this.s3] is [undefined]
    until [init]. *)
Definition this_s3 (this : instance) (method : string) : result client :=
  match s3 this with
  | Some client => Ok client
  | None =>
      Throw (TypeError ("Cannot read property '" +:+ method +:+ "' of undefined"))
  end.

(** [this.s3.method(params).promise()] inside a callback of a promise: a
    throw rejects the promise the callback belongs to. *)
Definition this_s3_send (this : instance) (method : string) (r : request)
    : promise response :=
  match this_s3 this method with
  | Ok _ => send r
  | Throw e => Settled (Rejected e)
  end.

(** [createBucket(bucketOptions)], lines 148-154. *)
Definition createBucket (this : instance) (bucketOptions : value)
    : result (promise response) :=
  _ ← this_s3 this "headBucket";
  bucketOptions_Bucket ← member bucketOptions "Bucket";
  Ok (catch_ (send (headBucket bucketOptions_Bucket))
             (fun _ => this_s3_send this "createBucket" (Aws.createBucket bucketOptions))).

(** [init()], lines 52-57: the global configuration, empty to begin with,
    is updated with [this.options.aws], the client is made, and
    provisioning starts. *)
Definition init (this : instance) : result instance :=
  let AWS_config := Object_assign ∅ (aws (options this)) in
  let this := {| commandOptions := commandOptions this;
                 options := options this;
                 s3 := Some {| apiVersion := "2006-03-01"; config := AWS_config |};
                 q := q this |} in
  this_q ← createBucket this (bucket (options this));
  Ok {| commandOptions := commandOptions this;
        options := options this;
        s3 := s3 this;
        q := Some this_q |}.

(** [this.q.then(onFulfilled)]: [this.q] is [undefined] before [init]. *)
Definition this_q_then {B} (this : instance)
    (onFulfilled : response -> promise B) : result (promise B) :=
  match q this with
  | Some _ => Ok (then_ (AwaitQ Settled) onFulfilled)
  | None => Throw (TypeError "Cannot read property 'then' of undefined")
  end.

(** The pattern literal of [fetchBuildsList], line 117:
    [/^\w+-\w+-\w+-[\w.]+$/]. *)
Definition build_id_pattern : regex :=
  Seq (Plus (Class word_char)) (Seq (Lit "-")
 (Seq (Plus (Class word_char)) (Seq (Lit "-")
 (Seq (Plus (Class word_char)) (Seq (Lit "-")
      (Plus (Class word_or_dot_char))))))).

(** [self.indexOf(item) === pos] *)
Definition is_first_occurrence (item : string) (pos : nat) (self : list string) : bool :=
  (indexOf self item =? Z.of_nat pos)%Z.

(** [key.split('/')[0]]; [split] never returns an empty array. *)
Definition first_segment (key : string) : string :=
  default "" (at_index (split "/" key) 0).

(** The callback of the last [then] of [fetchBuildsList], lines 113-119. *)
Definition builds_of_response (response : response) : list string :=
  filter_indexed is_first_occurrence
    (List.filter (test_anchored build_id_pattern)
       (map first_segment
          (map Key (Contents response)))).

(** [fetchBuildsList()], lines 107-120. *)
Definition fetchBuildsList (this : instance) : result (promise (list string)) :=
  bucket ← options_bucket_Bucket this;
  p ← this_q_then this (fun _ =>
        this_s3_send this "listObjectsV2" (listObjectsV2 bucket));
  Ok (then_ p (fun response => Settled (Fulfilled (builds_of_response response)))).

Section Inherited.

(** Members the class inherits from [AbstractTransport] and the
    arguments they work on.  [./abstract] is given by its methods'
    signatures only. *)
Context {build json : Type}.
Variable getBuildId : build -> string.
Variable normalizeFileName : string -> string.
Variable getUpdatesJsonUrl : command_options -> result string.
(** [JSON.stringify(data, null, '  ')] *)
Variable JSON_stringify : json -> string.
(** The host, which decides what [path.basename] is. *)
Variable host : platform.

(** [getRemoteFilePath(localFilePath, build)], lines 156-162. *)
Definition getRemoteFilePath (localFilePath : string) (b : build) : string :=
  let localFilePath := basename host localFilePath in
  posix_join [getBuildId b; normalizeFileName localFilePath].

(** [uploadFile(filePath, build)], lines 66-84.  The progress listener
    only feeds the progress display and is left out. *)
Definition uploadFile (this : instance) (filePath : string) (b : build)
    : result (promise string) :=
  let remotePath := getRemoteFilePath filePath b in
  bucket ← options_bucket_Bucket this;
  p ← this_q_then this (fun _ =>
        this_s3_send this "putObject"
          (putObject "public-read" (ReadStream filePath) bucket remotePath));
  Ok (then_ p (fun _ =>
        Settled (Fulfilled
          ("https://" +:+ ToString bucket +:+ ".s3.amazonaws.com/" +:+ remotePath)))).

(** [pushUpdatesJson(data)], lines 90-102. *)
Definition pushUpdatesJson (this : instance) (data : json)
    : result (promise string) :=
  bucket ← options_bucket_Bucket this;
  p ← this_q_then this (fun _ =>
        this_s3_send this "putObject"
          (putObject "public-read" (Text (JSON_stringify data)) bucket "updates.json"));
  Ok (then_ p (fun _ => of_result (getUpdatesJsonUrl (commandOptions this)))).

(** The keys [removeBuild] selects, lines 133-137. *)
Definition keys_of_build (buildId : string) (response : response) : list string :=
  List.filter (fun key => startsWith key buildId)
    (map Key (Contents response)).

(** [removeBuild(build)], lines 125-146. *)
Definition removeBuild (this : instance) (b : build)
    : result (promise response) :=
  bucket ← options_bucket_Bucket this;
  let buildId := getBuildId b in
  p ← this_q_then this (fun _ =>
        this_s3_send this "listObjectsV2" (listObjectsV2 bucket));
  Ok (then_ (then_ p
        (fun response => Settled (Fulfilled (keys_of_build buildId response))))
        (fun keys =>
           this_s3_send this "deleteObjects"
             (deleteObjects bucket (map (fun key => {| Key := key |}) keys)))).

End Inherited.

End S3Transport.

(* ===================================================================== *)
(** ** Operations in flight *)
(* ===================================================================== *)

Module EventLoop.
Import Aws Promise NodePath S3Transport.

Section Calls.

Context {build json : Type}.
Variable getBuildId : build -> string.
Variable normalizeFileName : string -> string.
Variable getUpdatesJsonUrl : command_options -> result string.
Variable JSON_stringify : json -> string.
Variable host : platform.

(** A call of a public operation by the publishing pipeline. *)
Inductive call : Type :=
| call_uploadFile (filePath : string) (b : build)
| call_pushUpdatesJson (data : json)
| call_fetchBuildsList
| call_removeBuild (b : build).

(** The promise a call returned, whatever it resolves with. *)
Inductive task : Type :=
| Task {A : Type} (p : promise A).

Definition task_sending (t : task) : list request :=
  match t with Task p => sending p end.

(** The synchronous part of a call: it throws or returns a promise. *)
Definition invoke (this : instance) (c : call) : result task :=
  match c with
  | call_uploadFile filePath b =>
      p ← uploadFile getBuildId normalizeFileName host this filePath b; Ok (Task p)
  | call_pushUpdatesJson data =>
      p ← pushUpdatesJson getUpdatesJsonUrl JSON_stringify this data; Ok (Task p)
  | call_fetchBuildsList =>
      p ← fetchBuildsList this; Ok (Task p)
  | call_removeBuild b =>
      p ← removeBuild getBuildId this b; Ok (Task p)
  end.

(** An instance at work: its shared promise [this.q] as far as it has
    got, the promises its public operations returned, and every call
    sent to the provider so far, oldest first. *)
Record state : Type := {
  this_q : promise response;
  tasks : list task;
  sent : list request;
}.

(** The state [init] leaves: provisioning has started, nothing else. *)
Definition started (this : instance) : option state :=
  this_q ← q this;
  Some {| this_q := this_q; tasks := []; sent := sending this_q |}.

(** One turn of the event loop on an instance [this] that has been
    initialised:
    - the pipeline calls a public operation, which returns a promise;
    - the provider answers the call [this.q] is waiting for;
    - [this.q] is settled and a promise chained on it runs its
      callback;
    - the provider answers the call an operation is waiting for.
    The provider answers in any order and with any outcome. *)
Inductive step (this : instance) : state -> state -> Prop :=
| step_call s c t :
    invoke this c = Ok t ->
    step this s {| this_q := this_q s;
                   tasks := tasks s ++ [t];
                   sent := sent s ++ task_sending t |}
| step_provision s r k o :
    this_q s = Pending r k ->
    step this s {| this_q := k o;
                   tasks := tasks s;
                   sent := sent s ++ sending (k o) |}
| step_wake s i A (k : outcome response -> promise A) o :
    tasks s !! i = Some (Task (AwaitQ k)) ->
    this_q s = Settled o ->
    step this s {| this_q := this_q s;
                   tasks := <[i := Task (k o)]> (tasks s);
                   sent := sent s ++ sending (k o) |}
| step_answer s i A r (k : outcome response -> promise A) o :
    tasks s !! i = Some (Task (Pending r k)) ->
    step this s {| this_q := this_q s;
                   tasks := <[i := Task (k o)]> (tasks s);
                   sent := sent s ++ sending (k o) |}.

(** The states an initialised instance can be in. *)
Definition reachable (this : instance) (s : state) : Prop :=
  exists s0, started this = Some s0 /\ rtc (step this) s0 s.

(** [this.q] has resolved: it is settled and fulfilled. *)
Definition resolved (p : promise response) : Prop :=
  exists v, p = Settled (Fulfilled v).

End Calls.

End EventLoop.

Import JsString JsArray Regex NodePath Aws Promise S3Transport EventLoop.

(* ===================================================================== *)
(** ** Vocabulary of the properties *)
(* ===================================================================== *)

Module Vocabulary.
Import JsString JsArray Regex NodePath Aws Promise S3Transport.

(** The provider options after the merge of line 31. *)
Definition merged_aws (options : transport_options) : object :=
  Object_assign (awsAuth options) (aws options).

(** The bucket part of [normalizeOptions], lines 38-49, as a function of
    the name and the [bucket] option. *)
Definition normalized_bucket (name : string) (b : value) : result value :=
  let b1 := if negb (truthy b) then VStr (name +:+ "-updates") else b in
  let b2 := if typeof_is_string b1 then VObj {[ "Bucket" := b1 ]} else b1 in
  bucket_Bucket ← member b2 "Bucket";
  if negb (truthy bucket_Bucket) then Throw (option_not_set "bucket") else Ok b2.

(** A [bucket] option the constructor accepts: absent or otherwise
    falsy, a string, or an object with a truthy [Bucket]. *)
Definition bucket_acceptable (b : value) : Prop :=
  truthy b = false \/ typeof_is_string b = true \/
  exists o : object, b = VObj o /\ truthy (get o "Bucket") = true.

(** Both credentials are set after the merge. *)
Definition credentials_set (options : transport_options) : Prop :=
  truthy (get (merged_aws options) "accessKeyId") = true /\
  truthy (get (merged_aws options) "secretAccessKey") = true.

(** Configurations for the examples: [publisher.json] with both keys and
    the package [myapp]. *)
Definition config_with (top_access top_secret : value) (provider : option object)
    (b : value) : command_options :=
  {| packageJson_name := "myapp";
     transport := {| accessKeyId := top_access;
                     secretAccessKey := top_secret;
                     aws := provider;
                     bucket := b |} |}.

(** A non-empty run of word characters, and one of word characters and
    dots. *)
Definition word_segment (s : string) : Prop :=
  s <> "" /\ JsString.all word_char s = true.

Definition word_or_dot_segment (s : string) : Prop :=
  s <> "" /\ JsString.all word_or_dot_char s = true.

(** A build identifier as the listing recognises it: three word segments
    and a last segment of word characters and dots, joined by hyphens. *)
Definition is_build_identifier (s : string) : Prop :=
  exists a b c d,
    s = a +:+ "-" +:+ b +:+ "-" +:+ c +:+ "-" +:+ d /\
    word_segment a /\ word_segment b /\ word_segment c /\ word_or_dot_segment d.

(** Deduplication that keeps every value where it is first seen. *)
Fixpoint first_seen (xs : list string) : list string :=
  match xs with
  | [] => []
  | x :: rest => x :: List.filter (fun y => negb (String.eqb y x)) (first_seen rest)
  end.

(** The same, given the values [seen] before [xs]. *)
Fixpoint first_seen_after (seen xs : list string) : list string :=
  match xs with
  | [] => []
  | x :: rest =>
      if existsb (String.eqb x) seen
      then first_seen_after (seen ++ [x]) rest
      else x :: first_seen_after (seen ++ [x]) rest
  end.

(** The separators of a host's paths. *)
Definition is_separator (host : platform) : ascii -> bool :=
  match host with
  | Posix => is_posix_separator
  | Win32 => is_win32_separator
  end.

(** A path segment that normalisation keeps as it is: not empty, not [.]
    or [..], and without a slash. *)
Definition plain_segment (s : string) : Prop :=
  s <> "" /\ s <> "." /\ s <> ".." /\
  JsString.all (fun c => negb (Ascii.eqb c "/")) s = true.

(** An instance that was constructed and then initialised. *)
Definition initialised (this : instance) : Prop :=
  exists cmd, (fresh ← constructor cmd; init fresh) = Ok this.

(** The provisioning promise [init] stores for the bucket options [o] with
    the name [name]. *)
Definition provisioning (name : value) (o : object) : promise response :=
  catch_ (send (headBucket name)) (fun _ => send (Aws.createBucket (VObj o))).

(** A promise that only ever waits for storage accesses. *)
Inductive accesses_only {A : Type} : promise A -> Prop :=
| accesses_settled o : accesses_only (Settled o)
| accesses_pending r k :
    is_storage_access r = true ->
    (forall o, accesses_only (k o)) ->
    accesses_only (Pending r k).

(** A promise chained on [this.q]: it waits for [this.q], passes a
    rejection on unchanged and only then, on fulfilment, turns to the
    storage. *)
Definition chained_on_q {A : Type} (p : promise A) : Prop :=
  exists k,
    p = AwaitQ k /\
    (forall e, k (Rejected e) = Settled (Rejected e)) /\
    (forall v, accesses_only (k (Fulfilled v))).

(** The stages of provisioning with the calls sent so far: checking the
    bucket, creating it, done. *)
Inductive provisioning_stage (name : value) (o : object)
  : promise response -> list request -> Prop :=
| stage_checking :
    provisioning_stage name o (provisioning name o) [headBucket name]
| stage_creating :
    provisioning_stage name o (send (Aws.createBucket (VObj o)))
      [headBucket name; Aws.createBucket (VObj o)]
| stage_checked ok :
    provisioning_stage name o (Settled (Fulfilled ok)) [headBucket name]
| stage_created out :
    provisioning_stage name o (Settled out)
      [headBucket name; Aws.createBucket (VObj o)].

(** A task against the state of [this.q]: still chained on it, or past it
    with [this.q] resolved, or settled. *)
Definition task_ok (this_q : promise response) (t : task) : Prop :=
  match t with
  | Task p =>
      chained_on_q p \/
      (accesses_only p /\ (resolved this_q \/ exists o, p = Settled o))
  end.

(** What holds of an instance at work. *)
Definition invariant (name : value) (o : object) (s : state) : Prop :=
  exists provision accesses,
    sent s = provision ++ accesses /\
    provisioning_stage name o (this_q s) provision /\
    Forall (fun r => is_storage_access r = true) accesses /\
    (accesses <> [] -> resolved (this_q s)) /\
    Forall (task_ok (this_q s)) (tasks s).

(** The outcome of a task when [this.q] is settled as [q]. *)
Definition task_run (s3 : request -> outcome response)
    (q : outcome response) (t : task) : list request * option error :=
  match t with
  | Task p =>
      let '(calls, out) := run s3 q p in
      (calls, match out with Fulfilled _ => None | Rejected e => Some e end)
  end.

(** A listing with the given keys. *)
Definition listing (keys : list string) : response :=
  {| Contents := map (fun key => {| Key := key |}) keys |}.

(** An instance after [new S3Transport(...)] and [init()], for the bucket
    [foo]. *)
Definition foo_config : command_options :=
  config_with (VStr "AKIA") (VStr "secret") None (VStr "foo").

Definition foo_instance : instance :=
  {| commandOptions := foo_config;
     options := {| accessKeyId := VStr "AKIA";
                   secretAccessKey := VStr "secret";
                   aws := Some (awsAuth (transport foo_config));
                   bucket := VObj {[ "Bucket" := VStr "foo" ]} |};
     s3 := Some {| apiVersion := "2006-03-01";
                   config := awsAuth (transport foo_config) |};
     q := Some (catch_ (send (headBucket (VStr "foo")))
                  (fun _ => send (Aws.createBucket (VObj {[ "Bucket" := VStr "foo" ]})))) |}.

(** A provider that has the bucket and lists the given keys. *)
Definition provider_listing (keys : list string) (r : request) : outcome response :=
  match r with
  | listObjectsV2 _ => Fulfilled (listing keys)
  | _ => Fulfilled (listing [])
  end.


(** A bucket descriptor with a creation option besides the name. *)
Definition private_builds : object :=
  {[ "Bucket" := VStr "builds"; "ACL" := VStr "private" ]}.


(** A build identifier of the form the listing recognises. *)
Definition release_getBuildId (_ : unit) : string := "win32-x64-prod-v1.0.0".

(** A pipeline without a manifest URL. *)
Definition missing_getUpdatesJsonUrl (_ : command_options) : result string :=
  Throw (Error "no updates.json url").

(** A provider that refuses every call. *)
Definition provider_denied (_ : request) : outcome response :=
  Rejected (ServiceError "AccessDenied").

(** A provider that lists the given keys and refuses the rest. *)
Definition provider_read_only (keys : list string) (r : request) : outcome response :=
  match r with
  | listObjectsV2 _ => Fulfilled (listing keys)
  | _ => Rejected (ServiceError "AccessDenied")
  end.

(** A pipeline for the examples: builds without metadata, one identifier. *)
Definition demo_getBuildId (_ : unit) : string := "App-1.0-win-x64".
Definition demo_normalizeFileName (fileName : string) : string := fileName.
Definition demo_getUpdatesJsonUrl (_ : command_options) : result string :=
  Ok "https://foo.s3.amazonaws.com/updates.json".
Definition demo_JSON_stringify (_ : unit) : string := "{}".

End Vocabulary.

Import Vocabulary.

(* ===================================================================== *)
(** * Properties *)
(* ===================================================================== *)

(** ** Configuration normalisation *)

Section NormalizeOptions.

Implicit Types (cmd : command_options) (options : transport_options).

Lemma result_bind_Ok {A B} (a : A) (f : A -> result B) :
  (Ok a ≫= f) = f a.
Proof. reflexivity. Qed.

Lemma normalizeOptions_unfold cmd options :
  normalizeOptions cmd options =
    if negb (truthy (get (merged_aws options) "accessKeyId"))
    then Throw (option_not_set "accessKeyId")
    else if negb (truthy (get (merged_aws options) "secretAccessKey"))
    then Throw (option_not_set "secretAccessKey")
    else b ← normalized_bucket (packageJson_name cmd) (bucket options);
         Ok {| accessKeyId := accessKeyId options;
               secretAccessKey := secretAccessKey options;
               aws := Some (merged_aws options);
               bucket := b |}.
Proof.
  unfold normalizeOptions, normalized_bucket, merged_aws. cbn [for_of].
  destruct (truthy (get _ "accessKeyId")); cbn [negb]; [|reflexivity].
  destruct (truthy (get _ "secretAccessKey")); cbn [negb]; [|reflexivity].
  rewrite !result_bind_Ok.
  destruct (member _ "Bucket") as [v|e]; [|reflexivity].
  rewrite !result_bind_Ok. destruct (truthy v); reflexivity.
Qed.

Lemma constructor_unfold cmd :
  constructor cmd =
    normalized ← normalizeOptions cmd (transport cmd);
    Ok {| commandOptions := cmd; options := normalized; s3 := None; q := None |}.
Proof. reflexivity. Qed.

Lemma append_nonempty_r (s t : string) : t <> "" -> s +:+ t <> "".
Proof. intros Ht. destruct s; [exact Ht | discriminate]. Qed.

Lemma truthy_VStr (s : string) : truthy (VStr s) = true <-> s <> "".
Proof.
  cbn. destruct (String.eqb_spec s ""); cbn; split; congruence.
Qed.

Lemma get_singleton (name : string) (v : value) : get {[ name := v ]} name = v.
Proof. unfold get. rewrite lookup_singleton_eq. reflexivity. Qed.

Lemma get_Some (o : object) (name : string) (v : value) :
  o !! name = Some v -> get o name = v.
Proof. unfold get. intros ->. reflexivity. Qed.

Lemma normalized_bucket_falsy name b :
  truthy b = false ->
  normalized_bucket name b = Ok (VObj {[ "Bucket" := VStr (name +:+ "-updates") ]}).
Proof.
  intros Hb. unfold normalized_bucket. rewrite Hb. cbn [negb typeof_is_string member].
  rewrite result_bind_Ok, get_singleton.
  assert (truthy (VStr (name +:+ "-updates")) = true) as ->; [|reflexivity].
  apply truthy_VStr, append_nonempty_r. discriminate.
Qed.

Lemma normalized_bucket_string name s :
  s <> "" ->
  normalized_bucket name (VStr s) = Ok (VObj {[ "Bucket" := VStr s ]}).
Proof.
  intros Hs. apply truthy_VStr in Hs. unfold normalized_bucket. rewrite Hs.
  cbn [negb typeof_is_string member].
  rewrite result_bind_Ok, get_singleton.
  rewrite Hs. reflexivity.
Qed.

Lemma normalized_bucket_object name (o : object) :
  normalized_bucket name (VObj o) =
    if truthy (get o "Bucket") then Ok (VObj o) else Throw (option_not_set "bucket").
Proof.
  unfold normalized_bucket. cbn. destruct (truthy (get o "Bucket")); reflexivity.
Qed.

(** Whatever [normalized_bucket] returns is an object with a truthy
    [Bucket]. *)
Lemma normalized_bucket_Ok name b b' :
  normalized_bucket name b = Ok b' ->
  exists (o : object) v,
    b' = VObj o /\ o !! "Bucket" = Some v /\ truthy v = true.
Proof.
  destruct (truthy b) eqn:Hb.
  - destruct b as [| |x|n|s|o]; cbn in Hb; try discriminate.
    + unfold normalized_bucket. cbn. rewrite Hb. cbn. discriminate.
    + unfold normalized_bucket. cbn. rewrite Hb. cbn. discriminate.
    + assert (s <> "") as Hs by (apply truthy_VStr; exact Hb).
      rewrite normalized_bucket_string by assumption. intros [= <-].
      exists {[ "Bucket" := VStr s ]}, (VStr s).
      rewrite lookup_singleton_eq. auto.
    + rewrite normalized_bucket_object. unfold get.
      destruct (o !! "Bucket") as [v|] eqn:Hv; cbn.
      * destruct (truthy v) eqn:Htv; [|discriminate].
        intros [= <-]. eauto.
      * discriminate.
  - rewrite normalized_bucket_falsy by assumption. intros [= <-].
    eexists _, _. split; [reflexivity|]. rewrite lookup_singleton_eq.
    split; [reflexivity|]. apply truthy_VStr, append_nonempty_r. discriminate.
Qed.

(** The only error of the bucket part is the bucket's. *)
Lemma normalized_bucket_Throw name b e :
  normalized_bucket name b = Throw e -> e = option_not_set "bucket".
Proof.
  destruct (truthy b) eqn:Hb.
  - destruct b as [| |x|n|s|o]; cbn in Hb; try discriminate.
    + unfold normalized_bucket. cbn. rewrite Hb. cbn. congruence.
    + unfold normalized_bucket. cbn. rewrite Hb. cbn. congruence.
    + rewrite normalized_bucket_string by (apply truthy_VStr; exact Hb).
      discriminate.
    + rewrite normalized_bucket_object.
      destruct (truthy (get o "Bucket")); congruence.
  - rewrite normalized_bucket_falsy by assumption. discriminate.
Qed.

Lemma normalized_bucket_acceptable name b :
  bucket_acceptable b -> exists b', normalized_bucket name b = Ok b'.
Proof.
  intros [Hb | [Hb | (o & -> & Ho)]].
  - rewrite normalized_bucket_falsy by assumption. eauto.
  - destruct b as [| |x|n|s|o]; try discriminate.
    destruct (truthy (VStr s)) eqn:Hs.
    + rewrite normalized_bucket_string by (apply truthy_VStr; exact Hs). eauto.
    + rewrite normalized_bucket_falsy by assumption. eauto.
  - rewrite normalized_bucket_object, Ho. eauto.
Qed.

Lemma constructor_credentials_set cmd :
  credentials_set (transport cmd) ->
  constructor cmd =
    b ← normalized_bucket (packageJson_name cmd) (bucket (transport cmd));
    Ok {| commandOptions := cmd;
          options := {| accessKeyId := accessKeyId (transport cmd);
                        secretAccessKey := secretAccessKey (transport cmd);
                        aws := Some (merged_aws (transport cmd));
                        bucket := b |};
          s3 := None; q := None |}.
Proof.
  intros [Ha Hs]. rewrite constructor_unfold, normalizeOptions_unfold, Ha, Hs.
  cbn [negb]. destruct (normalized_bucket _ _); reflexivity.
Qed.

Lemma constructor_Ok_bucket cmd this :
  constructor cmd = Ok this ->
  normalized_bucket (packageJson_name cmd) (bucket (transport cmd))
    = Ok (bucket (options this)).
Proof.
  rewrite constructor_unfold, normalizeOptions_unfold.
  destruct (truthy (get _ "accessKeyId")); cbn [negb]; [|discriminate].
  destruct (truthy (get _ "secretAccessKey")); cbn [negb]; [|discriminate].
  destruct (normalized_bucket _ _) as [b|e]; [|discriminate].
  intros [= <-]. reflexivity.
Qed.

(** C4. Construction with a credential that is missing after the merge of
    the provider options (absent, [null] or empty: falsy) throws the
    error naming the first such credential, whatever the other options
    are.  The constructor then returns no instance: [init], which makes
    the client and sends the first call, cannot run. *)
Theorem constructor_rejects_missing_credentials cmd :
  truthy (get (merged_aws (transport cmd)) "accessKeyId") = false \/
  truthy (get (merged_aws (transport cmd)) "secretAccessKey") = false ->
  exists name,
    (name = "accessKeyId" \/ name = "secretAccessKey") /\
    truthy (get (merged_aws (transport cmd)) name) = false /\
    constructor cmd = Throw (option_not_set name) /\
    (this ← constructor cmd; init this) = Throw (option_not_set name).
Proof.
  intros H. rewrite constructor_unfold, normalizeOptions_unfold.
  destruct (truthy (get _ "accessKeyId")) eqn:Ha; cbn [negb].
  - destruct H as [H|H]; [discriminate|]. rewrite H. cbn [negb].
    exists "secretAccessKey". auto.
  - exists "accessKeyId". auto.
Qed.

(** C5. After a successful construction [this.options.bucket] is an
    object whose [Bucket] is truthy, so not the empty string; with the
    credentials set, a non-empty string [s] becomes [{ Bucket: s }], a
    missing (falsy) bucket becomes [{ Bucket: name + '-updates' }] for
    the package's name, and an object without a truthy [Bucket], such as
    [{}], makes the constructor throw. *)
Theorem constructor_bucket_structured cmd :
  (forall this, constructor cmd = Ok this ->
     exists (o : object) name,
       bucket (options this) = VObj o /\ o !! "Bucket" = Some name /\
       truthy name = true /\ name <> VStr "") /\
  (credentials_set (transport cmd) ->
     (forall s, bucket (transport cmd) = VStr s -> s <> "" ->
        exists this, constructor cmd = Ok this /\
          bucket (options this) = VObj {[ "Bucket" := VStr s ]}) /\
     (truthy (bucket (transport cmd)) = false ->
        exists this, constructor cmd = Ok this /\
          bucket (options this) =
            VObj {[ "Bucket" := VStr (packageJson_name cmd +:+ "-updates") ]}) /\
     (forall o : object, bucket (transport cmd) = VObj o ->
        truthy (get o "Bucket") = false ->
        constructor cmd = Throw (option_not_set "bucket"))).
Proof.
  split.
  - intros this Hok. apply constructor_Ok_bucket in Hok.
    destruct (normalized_bucket_Ok _ _ _ Hok) as (o & v & Hb & Hv & Ht).
    exists o, v. repeat split; try assumption. intros ->. discriminate.
  - intros Hc. rewrite (constructor_credentials_set _ Hc). repeat split.
    + intros s -> Hs. rewrite normalized_bucket_string by assumption.
      eexists. split; reflexivity.
    + intros Hb. rewrite normalized_bucket_falsy by assumption.
      eexists. split; reflexivity.
    + intros o -> Ho. rewrite normalized_bucket_object, Ho. reflexivity.
Qed.

(** C10. When [options.aws] itself holds truthy [accessKeyId] and
    [secretAccessKey], the merged provider options hold these two values
    whatever the top-level fields are (also when they are [undefined]),
    no credential is reported as not set, and with an acceptable
    [bucket] option the construction succeeds. *)
Theorem provider_options_credentials_override cmd (o : object) ak sk :
  aws (transport cmd) = Some o ->
  o !! "accessKeyId" = Some ak -> truthy ak = true ->
  o !! "secretAccessKey" = Some sk -> truthy sk = true ->
  get (merged_aws (transport cmd)) "accessKeyId" = ak /\
  get (merged_aws (transport cmd)) "secretAccessKey" = sk /\
  constructor cmd <> Throw (option_not_set "accessKeyId") /\
  constructor cmd <> Throw (option_not_set "secretAccessKey") /\
  (bucket_acceptable (bucket (transport cmd)) ->
     exists this, constructor cmd = Ok this /\
       exists m : object, aws (options this) = Some m /\
         get m "accessKeyId" = ak /\ get m "secretAccessKey" = sk).
Proof.
  intros Haws Hak Htak Hsk Htsk.
  assert (get (merged_aws (transport cmd)) "accessKeyId" = ak) as Ha.
  { unfold merged_aws. rewrite Haws. cbn [Object_assign].
    apply get_Some, lookup_union_Some_l, Hak. }
  assert (get (merged_aws (transport cmd)) "secretAccessKey" = sk) as Hs.
  { unfold merged_aws. rewrite Haws. cbn [Object_assign].
    apply get_Some, lookup_union_Some_l, Hsk. }
  assert (credentials_set (transport cmd)) as Hc.
  { split; [rewrite Ha | rewrite Hs]; assumption. }
  rewrite (constructor_credentials_set _ Hc).
  split; [exact Ha|]. split; [exact Hs|].
  destruct (normalized_bucket _ _) as [b|e] eqn:Hb.
  - repeat split; try discriminate. intros _. eexists. split; [reflexivity|].
    cbn. eauto.
  - pose proof (normalized_bucket_Throw _ _ _ Hb) as ->.
    split; [intros H; vm_compute in H; discriminate|].
    split; [intros H; vm_compute in H; discriminate|].
    intros Hacc.
    destruct (normalized_bucket_acceptable (packageJson_name cmd) _ Hacc) as [b Hb'].
    rewrite Hb in Hb'. discriminate.
Qed.

Lemma constructor_rejects_missing_credentials_witness :
  exists name,
    (name = "accessKeyId" \/ name = "secretAccessKey") /\
    truthy (get (merged_aws
      (transport (config_with (VStr "AKIA") VUndefined None VUndefined))) name) = false /\
    constructor (config_with (VStr "AKIA") VUndefined None VUndefined)
      = Throw (option_not_set name) /\
    (this ← constructor (config_with (VStr "AKIA") VUndefined None VUndefined);
     init this) = Throw (option_not_set name).
Proof.
  apply (constructor_rejects_missing_credentials
           (config_with (VStr "AKIA") VUndefined None VUndefined)).
  right. vm_compute. reflexivity.
Defined.

Lemma constructor_bucket_structured_witness :
  (exists this,
     constructor (config_with (VStr "AKIA") (VStr "secret") None (VStr "foo")) = Ok this /\
     bucket (options this) = VObj {[ "Bucket" := VStr "foo" ]}) /\
  (exists this,
     constructor (config_with (VStr "AKIA") (VStr "secret") None VUndefined) = Ok this /\
     bucket (options this) = VObj {[ "Bucket" := VStr "myapp-updates" ]}) /\
  constructor (config_with (VStr "AKIA") (VStr "secret") None (VObj ∅))
    = Throw (option_not_set "bucket").
Proof.
  assert (forall b, credentials_set
            (transport (config_with (VStr "AKIA") (VStr "secret") None b))) as Hc.
  { intros b. split; vm_compute; reflexivity. }
  split; [|split].
  - destruct (constructor_bucket_structured
                (config_with (VStr "AKIA") (VStr "secret") None (VStr "foo")))
      as [_ H].
    destruct (H (Hc _)) as (Hs & _ & _).
    apply (Hs "foo"); [reflexivity | discriminate].
  - destruct (constructor_bucket_structured
                (config_with (VStr "AKIA") (VStr "secret") None VUndefined))
      as [_ H].
    destruct (H (Hc _)) as (_ & Hu & _).
    apply Hu. reflexivity.
  - destruct (constructor_bucket_structured
                (config_with (VStr "AKIA") (VStr "secret") None (VObj ∅)))
      as [_ H].
    destruct (H (Hc _)) as (_ & _ & Ho).
    apply (Ho ∅); reflexivity.
Defined.

Lemma provider_options_credentials_override_witness :
  exists this,
    constructor (config_with VUndefined VUndefined
      (Some {[ "accessKeyId" := VStr "AKIA"; "secretAccessKey" := VStr "secret" ]})
      VUndefined) = Ok this /\
    exists m : object, aws (options this) = Some m /\
      get m "accessKeyId" = VStr "AKIA" /\ get m "secretAccessKey" = VStr "secret".
Proof.
  apply (provider_options_credentials_override
           (config_with VUndefined VUndefined
              (Some {[ "accessKeyId" := VStr "AKIA"; "secretAccessKey" := VStr "secret" ]})
              VUndefined)
           {[ "accessKeyId" := VStr "AKIA"; "secretAccessKey" := VStr "secret" ]}
           (VStr "AKIA") (VStr "secret")).
  - reflexivity.
  - vm_compute. reflexivity.
  - reflexivity.
  - vm_compute. reflexivity.
  - reflexivity.
  - left. reflexivity.
Defined.

End NormalizeOptions.

(** ** Strings *)

Section StringFacts.

Lemma str_app_nil_l (s : string) : "" +:+ s = s.
Proof. reflexivity. Qed.

Lemma str_app_cons (c : ascii) (s t : string) :
  String c s +:+ t = String c (s +:+ t).
Proof. reflexivity. Qed.

Lemma str_app_nil_r (s : string) : s +:+ "" = s.
Proof. induction s as [|c s IH]; [reflexivity|]. rewrite str_app_cons, IH. reflexivity. Qed.

Lemma str_app_assoc (s t u : string) : (s +:+ t) +:+ u = s +:+ (t +:+ u).
Proof.
  induction s as [|c s IH]; [reflexivity|]. rewrite !str_app_cons, IH. reflexivity.
Qed.

Lemma str_app_eq_nil (s t : string) : s +:+ t = "" -> s = "" /\ t = "".
Proof. destruct s; [auto | discriminate]. Qed.

Lemma str_app_eq_cons (s t : string) (c : ascii) (u : string) :
  s +:+ t = String c u ->
  (s = "" /\ t = String c u) \/ exists s', s = String c s' /\ u = s' +:+ t.
Proof.
  destruct s as [|d s]; [auto|]. rewrite str_app_cons. intros [= -> <-]. eauto.
Qed.

Lemma all_app (p : ascii -> bool) (s t : string) :
  JsString.all p (s +:+ t) = JsString.all p s && JsString.all p t.
Proof.
  induction s as [|c s IH]; [reflexivity|].
  rewrite str_app_cons. cbn [JsString.all]. rewrite IH, andb_assoc. reflexivity.
Qed.

End StringFacts.

(** ** The matcher computes the language of a pattern *)

Section RegexFacts.

Lemma Matches_Seq_inv r1 r2 s :
  Matches (Seq r1 r2) s <->
  exists s1 s2, s = s1 +:+ s2 /\ Matches r1 s1 /\ Matches r2 s2.
Proof.
  split.
  - inversion 1; subst; eauto.
  - intros (s1 & s2 & -> & H1 & H2). constructor; assumption.
Qed.

Lemma Matches_Alt_inv r1 r2 s :
  Matches (Alt r1 r2) s <-> Matches r1 s \/ Matches r2 s.
Proof.
  split.
  - inversion 1; subst; auto.
  - intros [H|H]; [apply MAltL | apply MAltR]; assumption.
Qed.

Lemma Matches_Class_inv p s :
  Matches (Class p) s <-> exists c, s = String c "" /\ p c = true.
Proof.
  split.
  - inversion 1; subst; eauto.
  - intros (c & -> & H). constructor; assumption.
Qed.

Lemma Matches_Lit c s : Matches (Lit c) s <-> s = String c "".
Proof.
  unfold Lit. rewrite Matches_Class_inv. split.
  - intros (d & -> & H). apply Ascii.eqb_eq in H. subst. reflexivity.
  - intros ->. exists c. split; [reflexivity | apply Ascii.eqb_refl].
Qed.

Lemma nullable_spec r : nullable r = true <-> Matches r "".
Proof.
  induction r as [| |p|r1 IH1 r2 IH2|r1 IH1 r2 IH2|r IH]; cbn [nullable].
  - split; [discriminate | inversion 1].
  - split; [constructor | reflexivity].
  - split; [discriminate | inversion 1].
  - rewrite andb_true_iff, IH1, IH2, Matches_Seq_inv. split.
    + intros [H1 H2]. exists "", "". auto.
    + intros (s1 & s2 & Heq & H1 & H2). symmetry in Heq.
      apply str_app_eq_nil in Heq as [-> ->]. auto.
  - rewrite orb_true_iff, IH1, IH2, Matches_Alt_inv. reflexivity.
  - split; [constructor | reflexivity].
Qed.

Lemma deriv_sound c r : forall s, Matches (deriv c r) s -> Matches r (String c s).
Proof.
  induction r as [| |p|r1 IH1 r2 IH2|r1 IH1 r2 IH2|r IH]; intros s; cbn [deriv].
  - inversion 1.
  - inversion 1.
  - destruct (p c) eqn:Hp; inversion 1; subst. constructor; assumption.
  - assert (Matches (Seq (deriv c r1) r2) s -> Matches (Seq r1 r2) (String c s)) as Hseq.
    { rewrite Matches_Seq_inv. intros (s1 & s2 & -> & H1 & H2).
      rewrite <- str_app_cons. constructor; auto. }
    destruct (nullable r1) eqn:Hn; [|exact Hseq].
    rewrite Matches_Alt_inv. intros [H|H]; [auto|].
    change (String c s) with ("" +:+ String c s).
    constructor; [apply nullable_spec; exact Hn | auto].
  - rewrite !Matches_Alt_inv. intros [H|H]; auto.
  - rewrite Matches_Seq_inv. intros (s1 & s2 & -> & H1 & H2).
    rewrite <- str_app_cons. constructor; auto.
Qed.

Lemma deriv_complete c r s : Matches r (String c s) -> Matches (deriv c r) s.
Proof.
  intros H. remember (String c s) as cs eqn:Hcs. revert s Hcs.
  induction H as [|p d Hp|r1 r2 s1 s2 H1 IH1 H2 IH2|r1 r2 s0 H IH|r1 r2 s0 H IH
                 |r|r s1 s2 H1 IH1 H2 IH2]; intros s Hcs; cbn [deriv].
  - discriminate.
  - injection Hcs as -> <-. rewrite Hp. constructor.
  - apply str_app_eq_cons in Hcs as [[-> ->] | (s1' & -> & ->)].
    + apply nullable_spec in H1 as Hn. rewrite Hn.
      apply MAltR. apply IH2. reflexivity.
    + assert (Matches (Seq (deriv c r1) r2) (s1' +:+ s2)) as Hseq.
      { constructor; [apply IH1; reflexivity | assumption]. }
      destruct (nullable r1); [apply MAltL|]; exact Hseq.
  - apply MAltL. auto.
  - apply MAltR. auto.
  - discriminate.
  - apply str_app_eq_cons in Hcs as [[-> ->] | (s1' & -> & ->)].
    + apply IH2. reflexivity.
    + constructor; [apply IH1; reflexivity | assumption].
Qed.

(** The anchored test accepts exactly the strings of the pattern's
    language. *)
Lemma test_anchored_spec r s : test_anchored r s = true <-> Matches r s.
Proof.
  revert r. induction s as [|c s IH]; intros r; cbn [test_anchored].
  - apply nullable_spec.
  - rewrite IH. split; [apply deriv_sound | apply deriv_complete].
Qed.

Lemma Matches_Star_Class p s :
  Matches (Star (Class p)) s <-> JsString.all p s = true.
Proof.
  split.
  - intros H. remember (Star (Class p)) as r eqn:Hr.
    induction H as [| | | | | |r' s1 s2 H1 _ H2 IH2]; try discriminate.
    + reflexivity.
    + injection Hr as ->. apply Matches_Class_inv in H1 as (c & -> & Hc).
      rewrite all_app, IH2 by reflexivity. cbn. rewrite Hc. reflexivity.
  - induction s as [|c s IH]; cbn [JsString.all].
    + constructor.
    + rewrite andb_true_iff. intros [Hc Hs].
      change (String c s) with (String c "" +:+ s).
      constructor; [constructor; assumption | auto].
Qed.

(** [p+]: one code unit or more, all of them in [p]. *)
Lemma Matches_Plus_Class p s :
  Matches (Plus (Class p)) s <-> s <> "" /\ JsString.all p s = true.
Proof.
  unfold Plus. rewrite Matches_Seq_inv. split.
  - intros (s1 & s2 & -> & H1 & H2).
    apply Matches_Class_inv in H1 as (c & -> & Hc).
    apply Matches_Star_Class in H2.
    split; [discriminate|]. rewrite all_app, H2. cbn. rewrite Hc. reflexivity.
  - intros [Hne Hall]. destruct s as [|c s]; [congruence|].
    cbn [JsString.all] in Hall. apply andb_true_iff in Hall as [Hc Hs].
    exists (String c ""), s. split; [reflexivity|].
    split; [constructor; assumption | apply Matches_Star_Class; assumption].
Qed.

End RegexFacts.

(** ** Initialised instances *)

Section Initialised.

(** What the constructor and [init] establish: the bucket options are an
    object with a truthy [Bucket], and [this.q] is the provisioning promise
    for them. *)
Lemma initialised_inv this :
  initialised this ->
  exists (o : object) name client,
    bucket (options this) = VObj o /\ o !! "Bucket" = Some name /\
    truthy name = true /\
    options_bucket_Bucket this = Ok name /\
    s3 this = Some client /\
    q this = Some (provisioning name o).
Proof.
  intros [cmd Hinit].
  destruct (constructor cmd) as [fresh|e] eqn:Hc; [|discriminate].
  rewrite result_bind_Ok in Hinit.
  destruct (normalized_bucket_Ok _ _ _ (constructor_Ok_bucket _ _ Hc))
    as (o & name & Ho & Hname & Ht).
  unfold init, createBucket, this_s3 in Hinit. cbn [s3 options] in Hinit.
  rewrite result_bind_Ok, Ho in Hinit. cbn [member] in Hinit.
  rewrite !result_bind_Ok in Hinit. injection Hinit as <-.
  exists o, name. eexists. unfold options_bucket_Bucket.
  cbn [options bucket s3 q]. rewrite Ho. cbn [member].
  rewrite (get_Some _ _ _ Hname). repeat split; try assumption; reflexivity.
Qed.

Lemma foo_instance_initialised : initialised foo_instance.
Proof. exists foo_config. vm_compute. reflexivity. Qed.

End Initialised.

(** ** Listing the builds *)

Section FetchBuildsList.

(** The pattern literal accepts exactly the build identifiers. *)
Lemma build_id_pattern_spec s :
  test_anchored build_id_pattern s = true <-> is_build_identifier s.
Proof.
  rewrite test_anchored_spec. unfold build_id_pattern, is_build_identifier,
    word_segment, word_or_dot_segment.
  split.
  - intros H.
    apply Matches_Seq_inv in H as (a & s1 & -> & Ha & H).
    apply Matches_Seq_inv in H as (h1 & s2 & -> & Hh1 & H).
    apply Matches_Seq_inv in H as (b & s3 & -> & Hb & H).
    apply Matches_Seq_inv in H as (h2 & s4 & -> & Hh2 & H).
    apply Matches_Seq_inv in H as (c & s5 & -> & Hc & H).
    apply Matches_Seq_inv in H as (h3 & d & -> & Hh3 & Hd).
    apply Matches_Lit in Hh1 as ->. apply Matches_Lit in Hh2 as ->.
    apply Matches_Lit in Hh3 as ->.
    apply Matches_Plus_Class in Ha, Hb, Hc, Hd.
    exists a, b, c, d. auto.
  - intros (a & b & c & d & -> & Ha & Hb & Hc & Hd).
    apply Matches_Plus_Class in Ha, Hb, Hc, Hd.
    repeat (constructor; [first [assumption | apply Matches_Lit; reflexivity] |]).
    assumption.
Qed.

(** [indexOf] stops at the first occurrence. *)
Lemma indexOf_seen seen rest item :
  existsb (String.eqb item) seen = true ->
  (0 <= indexOf (seen ++ rest) item < Z.of_nat (length seen))%Z.
Proof.
  induction seen as [|x seen IH]; cbn [existsb app indexOf length]; [discriminate|].
  rewrite (String.eqb_sym item x).
  destruct (String.eqb x item); cbn [orb]; [lia|].
  intros H. specialize (IH H).
  destruct (Z.ltb_spec (indexOf (seen ++ rest) item) 0); lia.
Qed.

Lemma indexOf_unseen seen rest item :
  existsb (String.eqb item) seen = false ->
  indexOf (seen ++ item :: rest) item = Z.of_nat (length seen).
Proof.
  induction seen as [|x seen IH]; cbn [existsb app indexOf length].
  - rewrite String.eqb_refl. reflexivity.
  - rewrite (String.eqb_sym item x).
    destruct (String.eqb x item); cbn [orb]; [discriminate|].
    intros H. rewrite (IH H).
    destruct (Z.ltb_spec (Z.of_nat (length seen)) 0); lia.
Qed.

Lemma is_first_occurrence_spec seen item rest :
  is_first_occurrence item (length seen) (seen ++ item :: rest)
    = negb (existsb (String.eqb item) seen).
Proof.
  unfold is_first_occurrence.
  destruct (existsb (String.eqb item) seen) eqn:Hseen; cbn [negb].
  - pose proof (indexOf_seen seen (item :: rest) item Hseen). lia.
  - rewrite indexOf_unseen by assumption. lia.
Qed.

Lemma filter_from_first_seen_after seen xs :
  filter_from is_first_occurrence (seen ++ xs) (length seen) xs
    = first_seen_after seen xs.
Proof.
  revert seen. induction xs as [|x xs IH]; intros seen; [reflexivity|].
  cbn [filter_from first_seen_after]. rewrite is_first_occurrence_spec.
  specialize (IH (seen ++ [x])). rewrite <- List.app_assoc in IH. cbn [app] in IH.
  rewrite length_app in IH. cbn [length] in IH.
  replace (length seen + 1) with (S (length seen)) in IH by lia.
  rewrite IH. destruct (existsb (String.eqb x) seen); reflexivity.
Qed.

Lemma filter_filter_bool {A} (f g : A -> bool) (xs : list A) :
  List.filter f (List.filter g xs) = List.filter (fun x => g x && f x) xs.
Proof.
  induction xs as [|x xs IH]; [reflexivity|]. cbn [List.filter].
  destruct (g x); cbn [List.filter andb]; rewrite IH; reflexivity.
Qed.

Lemma first_seen_after_spec seen xs :
  first_seen_after seen xs
    = List.filter (fun y => negb (existsb (String.eqb y) seen)) (first_seen xs).
Proof.
  revert seen. induction xs as [|x xs IH]; intros seen; [reflexivity|].
  cbn [first_seen_after first_seen List.filter].
  rewrite IH, filter_filter_bool.
  assert (List.filter (fun y => negb (existsb (String.eqb y) (seen ++ [x]))) (first_seen xs)
          = List.filter (fun y => negb (y =? x)%string && negb (existsb (String.eqb y) seen))
              (first_seen xs)) as ->.
  { apply List.filter_ext. intros y. rewrite existsb_app. cbn [existsb].
    rewrite orb_false_r, negb_orb, andb_comm. reflexivity. }
  destruct (existsb (String.eqb x) seen); reflexivity.
Qed.

Lemma filter_true {A} (xs : list A) : List.filter (fun _ => true) xs = xs.
Proof. induction xs as [|x xs IH]; [reflexivity|]. cbn. rewrite IH. reflexivity. Qed.

(** The [indexOf] filter is deduplication in first-seen order. *)
Lemma filter_indexed_first_seen xs :
  filter_indexed is_first_occurrence xs = first_seen xs.
Proof.
  unfold filter_indexed.
  change (filter_from is_first_occurrence ([] ++ xs) (length (@nil string)) xs
          = first_seen xs).
  rewrite filter_from_first_seen_after, first_seen_after_spec.
  cbn [existsb negb]. apply filter_true.
Qed.

Lemma first_seen_In xs x : In x (first_seen xs) <-> In x xs.
Proof.
  induction xs as [|y xs IH]; [reflexivity|]. cbn [first_seen In].
  rewrite filter_In, IH. split.
  - intros [H|[H _]]; auto.
  - intros [H|H]; [auto|].
    destruct (String.eqb_spec x y) as [->|Hne]; [auto|].
    right. auto.
Qed.

Lemma first_seen_NoDup xs : List.NoDup (first_seen xs).
Proof.
  induction xs as [|y xs IH]; cbn [first_seen]; constructor.
  - rewrite filter_In. intros [_ H]. rewrite String.eqb_refl in H. discriminate.
  - apply List.NoDup_filter. exact IH.
Qed.

(** [split('/')[0]] is the part of the key before its first slash, or the
    whole key when it has none. *)
Lemma split_go_head sep cur s :
  exists seg rest,
    split_go sep cur s = String.rev_app cur seg :: rest /\
    JsString.all (fun c => negb (Ascii.eqb c sep)) seg = true /\
    (s = seg \/ exists tail, s = seg +:+ String sep tail).
Proof.
  revert cur. induction s as [|c s IH]; intros cur; cbn [split_go].
  - exists "", []. auto.
  - destruct (Ascii.eqb_spec c sep) as [->|Hne].
    + exists "", (split_go sep "" s). repeat split. right. exists s. reflexivity.
    + destruct (IH (String c cur)) as (seg & rest & Heq & Hall & Hs).
      exists (String c seg), rest. split; [exact Heq|]. split.
      * cbn [JsString.all]. rewrite Hall.
        destruct (Ascii.eqb_spec c sep); [contradiction | reflexivity].
      * destruct Hs as [->|[tail ->]]; [left; reflexivity|].
        right. exists tail. reflexivity.
Qed.

Lemma first_segment_spec key :
  JsString.all (fun c => negb (Ascii.eqb c "/")) (first_segment key) = true /\
  (key = first_segment key \/
   exists tail, key = first_segment key +:+ String "/" tail).
Proof.
  unfold first_segment, split, at_index.
  destruct (split_go_head "/" "" key) as (seg & rest & -> & Hall & Hs).
  cbn. auto.
Qed.

(** [fetchBuildsList] on an initialised instance: one listing call once
    [this.q] is fulfilled, none when it is rejected. *)
Lemma fetchBuildsList_run this name :
  initialised this ->
  options_bucket_Bucket this = Ok name ->
  exists p,
    fetchBuildsList this = Ok p /\
    (forall s3 v,
       run s3 (Fulfilled v) p =
         ([listObjectsV2 name],
          match s3 (listObjectsV2 name) with
          | Fulfilled r => Fulfilled (builds_of_response r)
          | Rejected e => Rejected e
          end)) /\
    (forall s3 e, run s3 (Rejected e) p = ([], Rejected e)).
Proof.
  intros Hinit Hname.
  destruct (initialised_inv _ Hinit) as (o & name' & client & _ & _ & _ & _ & Hs3 & Hq).
  unfold fetchBuildsList, this_q_then, this_s3_send, this_s3. rewrite Hname, Hq, Hs3.
  eexists. split; [reflexivity|]. split.
  - intros s3 v. cbn. destruct (s3 (listObjectsV2 name)); reflexivity.
  - intros s3 e. reflexivity.
Qed.

(** C2 (amended). For every listing, [fetchBuildsList] resolves with the
    first path segments of the keys that are build identifiers in the
    sense of the pattern literal, three word segments and a last segment
    of word characters and dots joined by hyphens, each once and in the
    order of first appearance. *)
Theorem fetchBuildsList_first_seen_build_identifiers
    this name (s3 : request -> outcome response) (v r : response) :
  initialised this ->
  options_bucket_Bucket this = Ok name ->
  s3 (listObjectsV2 name) = Fulfilled r ->
  exists p builds,
    fetchBuildsList this = Ok p /\
    run s3 (Fulfilled v) p = ([listObjectsV2 name], Fulfilled builds) /\
    builds = first_seen
               (List.filter (test_anchored build_id_pattern)
                  (map first_segment (map Key (Contents r)))) /\
    List.NoDup builds /\
    (forall id,
       In id builds <->
       is_build_identifier id /\
       exists key, In key (map Key (Contents r)) /\ first_segment key = id).
Proof.
  intros Hinit Hname Hlist.
  destruct (fetchBuildsList_run this name Hinit Hname) as (p & Hp & Hrun & _).
  exists p, (builds_of_response r). split; [exact Hp|].
  split; [rewrite Hrun, Hlist; reflexivity|].
  unfold builds_of_response. rewrite filter_indexed_first_seen.
  split; [reflexivity|]. split; [apply first_seen_NoDup|].
  intros id. rewrite first_seen_In, filter_In, build_id_pattern_spec, in_map_iff.
  split.
  - intros [(key & Hkey & Hin) Hid]. eauto.
  - intros [Hid (key & Hin & Hkey)]. eauto.
Qed.

Lemma fetchBuildsList_first_seen_build_identifiers_witness :
  exists p,
    fetchBuildsList foo_instance = Ok p /\
    run (provider_listing ["win32-x64-prod-v1.0.0/a.exe"; "win32-x64-prod-v1.0.0/b.exe";
                           "darwin-x64-prod-v2.0/c.dmg"; "readme.txt";
                           "win32-x64-prod-v1.0.0/d.exe"])
        (Fulfilled (listing [])) p
      = ([listObjectsV2 (VStr "foo")],
         Fulfilled ["win32-x64-prod-v1.0.0"; "darwin-x64-prod-v2.0"]).
Proof.
  destruct (fetchBuildsList_first_seen_build_identifiers foo_instance (VStr "foo")
              (provider_listing ["win32-x64-prod-v1.0.0/a.exe"; "win32-x64-prod-v1.0.0/b.exe";
                                 "darwin-x64-prod-v2.0/c.dmg"; "readme.txt";
                                 "win32-x64-prod-v1.0.0/d.exe"])
              (listing [])
              (listing ["win32-x64-prod-v1.0.0/a.exe"; "win32-x64-prod-v1.0.0/b.exe";
                        "darwin-x64-prod-v2.0/c.dmg"; "readme.txt";
                        "win32-x64-prod-v1.0.0/d.exe"]))
    as (p & builds & Hp & Hrun & Hbuilds & _).
  - exists foo_config. vm_compute. reflexivity.
  - vm_compute. reflexivity.
  - reflexivity.
  - exists p. split; [exact Hp|]. rewrite Hrun, Hbuilds. vm_compute. reflexivity.
Defined.

(** C2 as stated fails on its own example: [1.0] and [2.0] hold a dot, which
    the pattern admits in the last segment only, so the listing of these
    keys resolves with no build at all. *)
Lemma fetchBuildsList_rejects_dotted_second_segment :
  exists p,
    fetchBuildsList foo_instance = Ok p /\
    snd (run (provider_listing ["App-1.0-win-x64/a.exe"; "App-1.0-win-x64/b.exe";
                                "App-2.0-mac-x64/c.dmg"; "readme.txt"])
             (Fulfilled (listing [])) p)
      = Fulfilled [] /\
    snd (run (provider_listing ["App-1.0-win-x64/a.exe"; "App-1.0-win-x64/b.exe";
                                "App-2.0-mac-x64/c.dmg"; "readme.txt"])
             (Fulfilled (listing [])) p)
      <> Fulfilled ["App-1.0-win-x64"; "App-2.0-mac-x64"].
Proof.
  eexists. split; [vm_compute; reflexivity|].
  split; [vm_compute; reflexivity|]. vm_compute. discriminate.
Qed.

End FetchBuildsList.

(** ** Removing a build *)

Section RemoveBuild.

Context {build : Type}.
Variable getBuildId : build -> string.

(** [startsWith] is being an extension of the prefix. *)
Lemma startsWith_spec s prefix :
  startsWith s prefix = true <-> exists rest, s = prefix +:+ rest.
Proof.
  unfold startsWith. revert s.
  induction prefix as [|c prefix IH]; intros s.
  - split; [intros _; exists s; reflexivity | intros _; destruct s; reflexivity].
  - destruct s as [|d s]; simpl String.prefix;
      [split; [discriminate | intros [rest H]; discriminate]|].
    destruct (ascii_dec c d) as [->|Hne].
    + rewrite IH. split; intros [rest H]; exists rest.
      * rewrite H. reflexivity.
      * rewrite str_app_cons in H. injection H as ->. reflexivity.
    + split; [discriminate|]. intros [rest H]. rewrite str_app_cons in H.
      injection H as -> _. contradiction.
Qed.

(** [removeBuild] on an initialised instance: nothing when [this.q] is
    rejected; otherwise a listing and, when the listing succeeds, one batch
    delete of the selected keys, whose outcome is the operation's. *)
Lemma removeBuild_run this name (b : build) :
  initialised this ->
  options_bucket_Bucket this = Ok name ->
  exists p,
    removeBuild getBuildId this b = Ok p /\
    (forall s3 v,
       run s3 (Fulfilled v) p =
         match s3 (listObjectsV2 name) with
         | Fulfilled r =>
             let objects :=
               map (fun key => {| Key := key |}) (keys_of_build (getBuildId b) r) in
             ([listObjectsV2 name; deleteObjects name objects],
              s3 (deleteObjects name objects))
         | Rejected e => ([listObjectsV2 name], Rejected e)
         end) /\
    (forall s3 e, run s3 (Rejected e) p = ([], Rejected e)).
Proof.
  intros Hinit Hname.
  destruct (initialised_inv _ Hinit) as (o & name' & client & _ & _ & _ & _ & Hs3 & Hq).
  unfold removeBuild, this_q_then, this_s3_send, this_s3. rewrite Hname, Hq, Hs3.
  eexists. split; [reflexivity|]. split.
  - intros s3 v. cbn. destruct (s3 (listObjectsV2 name)) as [r|e]; [|reflexivity].
    cbn. destruct (s3 (deleteObjects _ _)); reflexivity.
  - intros s3 e. reflexivity.
Qed.

Lemma keys_of_build_In buildId r key :
  In key (keys_of_build buildId r) <->
  In key (map Key (Contents r)) /\ exists rest, key = buildId +:+ rest.
Proof.
  unfold keys_of_build. rewrite filter_In, startsWith_spec. reflexivity.
Qed.

(** C3. For every build and listing, [removeBuild] sends, after the
    listing, one batch delete; its objects are the listed keys that start
    with the build's identifier, in the listing's order, and nothing
    else. *)
Theorem removeBuild_deletes_prefixed_keys
    this name (b : build) (s3 : request -> outcome response) (v r : response) :
  initialised this ->
  options_bucket_Bucket this = Ok name ->
  s3 (listObjectsV2 name) = Fulfilled r ->
  exists p deleted,
    removeBuild getBuildId this b = Ok p /\
    fst (run s3 (Fulfilled v) p) =
      [listObjectsV2 name;
       deleteObjects name (map (fun key => {| Key := key |}) deleted)] /\
    deleted = List.filter (fun key => startsWith key (getBuildId b))
                (map Key (Contents r)) /\
    (forall key,
       In key deleted <->
       In key (map Key (Contents r)) /\ exists rest, key = getBuildId b +:+ rest).
Proof.
  intros Hinit Hname Hlist.
  destruct (removeBuild_run this name b Hinit Hname) as (p & Hp & Hrun & _).
  exists p, (keys_of_build (getBuildId b) r). split; [exact Hp|].
  split; [rewrite Hrun, Hlist; reflexivity|].
  split; [reflexivity|]. intros key. apply keys_of_build_In.
Qed.


(** C9. The selection is by prefix of the whole key: a listed key whose
    first segment is the build's identifier followed by more characters,
    the key of another build, is in the batch delete as well. *)
Theorem removeBuild_deletes_longer_identifiers
    this name (b : build) (s3 : request -> outcome response) (v r : response)
    (key extension : string) :
  initialised this ->
  options_bucket_Bucket this = Ok name ->
  s3 (listObjectsV2 name) = Fulfilled r ->
  In key (map Key (Contents r)) ->
  first_segment key = getBuildId b +:+ extension ->
  extension <> "" ->
  first_segment key <> getBuildId b /\
  exists p objects,
    removeBuild getBuildId this b = Ok p /\
    fst (run s3 (Fulfilled v) p) = [listObjectsV2 name; deleteObjects name objects] /\
    In {| Key := key |} objects.
Proof.
  intros Hinit Hname Hlist Hin Hseg Hext. split.
  - rewrite Hseg. intros H. apply Hext.
    rewrite <- (str_app_nil_r (getBuildId b)) in H at 2.
    apply (inj (String.append (getBuildId b))) in H. exact H.
  - destruct (removeBuild_run this name b Hinit Hname) as (p & Hp & Hrun & _).
    exists p, (map (fun key => {| Key := key |}) (keys_of_build (getBuildId b) r)).
    split; [exact Hp|]. split; [rewrite Hrun, Hlist; reflexivity|].
    apply in_map. apply keys_of_build_In. split; [exact Hin|].
    destruct (first_segment_spec key) as [_ [Hkey|[tail Hkey]]].
    + exists extension. rewrite Hkey at 1. exact Hseg.
    + exists (extension +:+ String "/" tail). rewrite Hkey at 1.
      rewrite Hseg, str_app_assoc. reflexivity.
Qed.

End RemoveBuild.

Lemma removeBuild_deletes_prefixed_keys_witness :
  exists p,
    removeBuild (fun _ : unit => "App-1.0-win-x64") foo_instance tt = Ok p /\
    fst (run (provider_listing ["App-1.0-win-x64/a.exe"; "App-2.0-mac-x64/c.dmg";
                                "App-1.0-win-x64/b.exe"; "updates.json"])
             (Fulfilled (listing [])) p)
      = [listObjectsV2 (VStr "foo");
         deleteObjects (VStr "foo")
           [ {| Key := "App-1.0-win-x64/a.exe" |}; {| Key := "App-1.0-win-x64/b.exe" |} ]].
Proof.
  destruct (removeBuild_deletes_prefixed_keys (fun _ : unit => "App-1.0-win-x64")
              foo_instance (VStr "foo") tt
              (provider_listing ["App-1.0-win-x64/a.exe"; "App-2.0-mac-x64/c.dmg";
                                 "App-1.0-win-x64/b.exe"; "updates.json"])
              (listing [])
              (listing ["App-1.0-win-x64/a.exe"; "App-2.0-mac-x64/c.dmg";
                        "App-1.0-win-x64/b.exe"; "updates.json"]))
    as (p & deleted & Hp & Hsent & Hdeleted & _).
  - exists foo_config. vm_compute. reflexivity.
  - vm_compute. reflexivity.
  - reflexivity.
  - exists p. split; [exact Hp|]. rewrite Hsent, Hdeleted. vm_compute. reflexivity.
Defined.


Lemma removeBuild_deletes_longer_identifiers_witness :
  first_segment "App-1.0-win-x64-beta/app.exe" <> "App-1.0-win-x64" /\
  exists p objects,
    removeBuild (fun _ : unit => "App-1.0-win-x64") foo_instance tt = Ok p /\
    fst (run (provider_listing ["App-1.0-win-x64/app.exe"; "App-1.0-win-x64-beta/app.exe"])
             (Fulfilled (listing [])) p)
      = [listObjectsV2 (VStr "foo"); deleteObjects (VStr "foo") objects] /\
    In {| Key := "App-1.0-win-x64-beta/app.exe" |} objects.
Proof.
  apply (removeBuild_deletes_longer_identifiers (fun _ : unit => "App-1.0-win-x64")
           foo_instance (VStr "foo") tt
           (provider_listing ["App-1.0-win-x64/app.exe"; "App-1.0-win-x64-beta/app.exe"])
           (listing [])
           (listing ["App-1.0-win-x64/app.exe"; "App-1.0-win-x64-beta/app.exe"])
           "App-1.0-win-x64-beta/app.exe" "-beta").
  - exists foo_config. vm_compute. reflexivity.
  - vm_compute. reflexivity.
  - reflexivity.
  - right. left. reflexivity.
  - vm_compute. reflexivity.
  - discriminate.
Defined.

(** ** Remote paths *)

Section RemotePath.

Lemma rev_app_rev_app (s acc acc' : string) :
  String.rev_app (String.rev_app s acc) acc' = String.rev_app acc (s +:+ acc').
Proof.
  revert acc acc'. induction s as [|c s IH]; intros acc acc'; [reflexivity|].
  cbn [String.rev_app]. rewrite IH. reflexivity.
Qed.

Lemma rev_involutive (s : string) : String.rev (String.rev s) = s.
Proof. unfold String.rev. rewrite rev_app_rev_app. cbn. apply str_app_nil_r. Qed.

Lemma rev_app_app (s t acc : string) :
  String.rev_app (s +:+ t) acc = String.rev_app t (String.rev_app s acc).
Proof.
  revert acc. induction s as [|c s IH]; intros acc; [reflexivity|].
  rewrite str_app_cons. cbn [String.rev_app]. apply IH.
Qed.

Lemma rev_app_acc (s acc : string) :
  String.rev_app s acc = String.rev s +:+ acc.
Proof.
  unfold String.rev. revert acc. induction s as [|c s IH]; intros acc; [reflexivity|].
  cbn [String.rev_app]. rewrite IH, (IH (String c "")), str_app_assoc. reflexivity.
Qed.

Lemma all_rev_app p (s acc : string) :
  JsString.all p s = true -> JsString.all p acc = true ->
  JsString.all p (String.rev_app s acc) = true.
Proof.
  revert acc. induction s as [|c s IH]; intros acc Hs Hacc; [exact Hacc|].
  cbn in Hs. apply andb_true_iff in Hs as [Hc Hs].
  cbn [String.rev_app]. apply IH; [exact Hs|]. cbn. rewrite Hc, Hacc. reflexivity.
Qed.

Lemma all_rev p (s : string) :
  JsString.all p s = true -> JsString.all p (String.rev s) = true.
Proof. intros Hs. apply all_rev_app; [exact Hs | reflexivity]. Qed.

(** The backward scan, on the reversed path: trailing separators, then the
    component, then the rest. *)
Lemma skip_separators_spec is_sep r :
  exists seps,
    r = seps +:+ skip_separators is_sep r /\
    JsString.all is_sep seps = true.
Proof.
  induction r as [|c r (seps & Hr & Hseps)]; [exists ""; auto|].
  cbn [skip_separators]. destruct (is_sep c) eqn:Hc.
  - exists (String c seps). rewrite str_app_cons, <- Hr. cbn. rewrite Hc, Hseps. auto.
  - exists "". auto.
Qed.

Lemma last_component_spec is_sep r acc :
  exists comp rest,
    r = comp +:+ rest /\
    last_component is_sep r acc = String.rev_app comp acc /\
    JsString.all (fun c => negb (is_sep c)) comp = true /\
    (rest = "" \/ exists c rest', rest = String c rest' /\ is_sep c = true).
Proof.
  revert acc. induction r as [|c r IH]; intros acc.
  - exists "", "". auto.
  - cbn [last_component]. destruct (is_sep c) eqn:Hc.
    + exists "", (String c r). repeat split. right. eauto.
    + destruct (IH (String c acc)) as (comp & rest & -> & Hlast & Hall & Hrest).
      exists (String c comp), rest. rewrite Hlast. cbn. rewrite Hc, Hall. auto.
Qed.

(** [basename]: the path is a directory part that is empty or ends with a
    separator, then the base name without any separator, then separators
    only. *)
Lemma basename_scan_spec is_sep path :
  exists dir trail,
    path = dir +:+ basename_scan is_sep path +:+ trail /\
    JsString.all (fun c => negb (is_sep c)) (basename_scan is_sep path) = true /\
    JsString.all is_sep trail = true /\
    (dir = "" \/ exists d c, dir = d +:+ String c "" /\ is_sep c = true).
Proof.
  unfold basename_scan.
  destruct (skip_separators_spec is_sep (String.rev path)) as (seps & Hrev & Hseps).
  destruct (last_component_spec is_sep (skip_separators is_sep (String.rev path)) "")
    as (comp & rest & Hskip & -> & Hcomp & Hrest).
  rewrite Hskip in Hrev.
  assert (path = String.rev rest +:+ String.rev comp +:+ String.rev seps) as Hpath.
  { rewrite <- (rev_involutive path), Hrev. unfold String.rev.
    rewrite !rev_app_app. cbn [String.rev_app].
    rewrite (rev_app_acc rest), (rev_app_acc comp). unfold String.rev.
    rewrite rev_app_acc. unfold String.rev. reflexivity. }
  exists (String.rev rest), (String.rev seps). split; [exact Hpath|].
  split; [apply all_rev; exact Hcomp|]. split; [apply all_rev; exact Hseps|].
  destruct Hrest as [->|(c & rest' & -> & Hc)]; [left; reflexivity|].
  right. exists (String.rev rest'), c. split; [|exact Hc].
  unfold String.rev. cbn [String.rev_app]. apply rev_app_acc.
Qed.

(** [path.basename] on either host: what is stripped is a directory part,
    empty, ending with a separator or a bare drive prefix, and the
    separators after the name. *)
Lemma basename_spec host path :
  exists dir trail,
    path = dir +:+ basename host path +:+ trail /\
    JsString.all (fun c => negb (is_separator host c)) (basename host path) = true /\
    JsString.all (is_separator host) trail = true /\
    (dir = "" \/
     (exists d c, dir = d +:+ String c "" /\ is_separator host c = true) \/
     (host = Win32 /\ exists d, dir = String d ":" /\ is_windows_device_root d = true)).
Proof.
  destruct host; cbn [basename is_separator].
  - destruct (basename_scan_spec is_posix_separator path)
      as (dir & trail & Hpath & Hname & Htrail & Hdir).
    exists dir, trail. intuition.
  - assert (forall p,
      exists dir trail,
        p = dir +:+ basename_scan is_win32_separator p +:+ trail /\
        JsString.all (fun c => negb (is_win32_separator c))
          (basename_scan is_win32_separator p) = true /\
        JsString.all is_win32_separator trail = true /\
        (dir = "" \/
         (exists d c, dir = d +:+ String c "" /\ is_win32_separator c = true) \/
         (Win32 = Win32 /\
          exists d, dir = String d ":" /\ is_windows_device_root d = true))) as Hplain.
    { intros p. destruct (basename_scan_spec is_win32_separator p)
        as (dir & trail & Hp & Hname & Htrail & Hdir).
      exists dir, trail. intuition. }
    unfold win32_basename. destruct path as [|d [|colon rest]]; try apply Hplain.
    destruct (is_windows_device_root d && Ascii.eqb colon ":") eqn:Hdrive;
      [|apply Hplain].
    apply andb_true_iff in Hdrive as [Hd Hcolon]. apply Ascii.eqb_eq in Hcolon as ->.
    destruct (basename_scan_spec is_win32_separator rest)
      as (dir & trail & Hrest & Hname & Htrail & Hdir).
    exists (String d (String ":" dir)), trail.
    split; [rewrite !str_app_cons, <- Hrest; reflexivity|].
    split; [exact Hname|]. split; [exact Htrail|]. right.
    destruct Hdir as [->|(d' & c & -> & Hc)].
    + right. split; [reflexivity|]. exists d. auto.
    + left. exists (String d (String ":" d')), c. auto.
Qed.

(** Splitting at the first separator. *)
Lemma split_go_app sep cur a t :
  JsString.all (fun c => negb (Ascii.eqb c sep)) a = true ->
  split_go sep cur (a +:+ t) = split_go sep (String.rev_app a cur) t.
Proof.
  revert cur. induction a as [|c a IH]; intros cur Ha; [reflexivity|].
  cbn in Ha. apply andb_true_iff in Ha as [Hc Ha]. apply negb_true_iff in Hc.
  rewrite str_app_cons. cbn [split_go String.rev_app]. rewrite Hc. apply IH, Ha.
Qed.

Lemma split_two sep a b :
  JsString.all (fun c => negb (Ascii.eqb c sep)) a = true ->
  JsString.all (fun c => negb (Ascii.eqb c sep)) b = true ->
  split sep (a +:+ String sep "" +:+ b) = [a; b].
Proof.
  intros Ha Hb. unfold split. rewrite split_go_app by exact Ha.
  rewrite str_app_cons, str_app_nil_l. cbn [split_go]. rewrite Ascii.eqb_refl.
  change (String.rev_app a "") with (String.rev a). rewrite rev_involutive.
  assert (split_go sep "" b = [b]) as ->; [|reflexivity].
  pose proof (split_go_app sep "" b "" Hb) as H. rewrite str_app_nil_r in H.
  rewrite H. cbn [split_go]. change (String.rev_app b "") with (String.rev b).
  rewrite rev_involutive. reflexivity.
Qed.

Lemma ends_with_char_app c s t :
  t <> "" -> ends_with_char c (s +:+ t) = ends_with_char c t.
Proof.
  intros Ht. induction s as [|d s IH]; [reflexivity|].
  rewrite str_app_cons. cbn [ends_with_char]. rewrite IH.
  destruct (s +:+ t) eqn:Hst; [|reflexivity].
  apply str_app_eq_nil in Hst as [_ ->]. contradiction.
Qed.

Lemma ends_with_char_absent c s :
  JsString.all (fun d => negb (Ascii.eqb d c)) s = true -> ends_with_char c s = false.
Proof.
  induction s as [|d s IH]; [reflexivity|]. cbn [JsString.all ends_with_char].
  intros H. apply andb_true_iff in H as [Hd Hs]. apply negb_true_iff in Hd.
  destruct s; [exact Hd | apply IH, Hs].
Qed.

Lemma eqb_false (s t : string) : s <> t -> String.eqb s t = false.
Proof. intros H. apply String.eqb_neq. exact H. Qed.

(** [path.posix.join] of two plain segments puts one slash between them. *)
Lemma posix_join_plain a b :
  plain_segment a -> plain_segment b -> posix_join [a; b] = a +:+ "/" +:+ b.
Proof.
  intros (Ha0 & Ha1 & Ha2 & Ha) (Hb0 & Hb1 & Hb2 & Hb).
  unfold posix_join. cbn [List.filter].
  rewrite (eqb_false a "" Ha0), (eqb_false b "" Hb0). cbn [negb JsString.join].
  unfold posix_normalize, normalizeString.
  rewrite (split_two "/" a b Ha Hb). cbn [fold_left]. unfold normalize_step.
  rewrite (eqb_false a "" Ha0), (eqb_false a "." Ha1), (eqb_false a ".." Ha2).
  rewrite (eqb_false b "" Hb0), (eqb_false b "." Hb1), (eqb_false b ".." Hb2).
  cbn [orb rev app JsString.join].
  assert (a +:+ "/" +:+ b <> "") as Hne.
  { destruct a; [congruence | discriminate]. }
  rewrite (eqb_false _ "" Hne). cbn [andb negb].
  rewrite (ends_with_char_app "/" a ("/" +:+ b)) by discriminate.
  rewrite (ends_with_char_app "/" "/" b) by exact Hb0.
  rewrite (ends_with_char_absent "/" b Hb).
  destruct a as [|c a]; [congruence|]. rewrite str_app_cons.
  cbn in Ha. apply andb_true_iff in Ha as [Hc _]. apply negb_true_iff in Hc.
  rewrite Hc. reflexivity.
Qed.


End RemotePath.


(** ** Provisioning and the operations that wait for it *)

Section Provisioning.

Context {build json : Type}.
Variable getBuildId : build -> string.
Variable normalizeFileName : string -> string.
Variable getUpdatesJsonUrl : command_options -> result string.
Variable JSON_stringify : json -> string.
Variable host : platform.

Abbreviation invoke := (invoke getBuildId normalizeFileName getUpdatesJsonUrl JSON_stringify host).
Abbreviation step := (step getBuildId normalizeFileName getUpdatesJsonUrl JSON_stringify host).
Abbreviation reachable :=
  (reachable getBuildId normalizeFileName getUpdatesJsonUrl JSON_stringify host).

Lemma accesses_only_send {A} r (g : outcome response -> promise A) :
  is_storage_access r = true ->
  (forall o, accesses_only (g o)) ->
  accesses_only (Pending r g).
Proof. intros Hr Hg. constructor; assumption. Qed.

(** Every promise a public operation returns is chained on [this.q]. *)
Lemma invoke_chained this c t :
  invoke this c = Ok t ->
  match t with Task p => chained_on_q p end.
Proof.
  destruct c as [filePath b|data| |b]; cbn [EventLoop.invoke];
    unfold uploadFile, pushUpdatesJson, fetchBuildsList, removeBuild, this_q_then,
      this_s3_send, this_s3;
    destruct (options_bucket_Bucket this) as [name|e]; try discriminate;
    rewrite result_bind_Ok;
    destruct (q this) as [prov|]; try discriminate;
    rewrite !result_bind_Ok; intros [= <-];
    (eexists; split; [reflexivity|]; split; [reflexivity|]);
    intros v; cbn; destruct (s3 this) as [client|]; try constructor;
    try reflexivity; intros [a|e]; cbn; try constructor.
  - destruct (getUpdatesJsonUrl _); constructor.
  - reflexivity.
  - intros out. constructor.
Qed.

(** On an initialised instance no public operation throws. *)
Lemma invoke_initialised this c :
  initialised this -> exists t, invoke this c = Ok t.
Proof.
  intros Hinit.
  destruct (initialised_inv _ Hinit) as (o & name & client & _ & _ & _ & Hname & _ & Hq).
  destruct c as [filePath b|data| |b]; cbn [EventLoop.invoke];
    unfold uploadFile, pushUpdatesJson, fetchBuildsList, removeBuild, this_q_then;
    rewrite Hname, Hq; eexists; reflexivity.
Qed.

Lemma chained_on_q_rejected {A} (p : promise A) s3 e :
  chained_on_q p -> run s3 (Rejected e) p = ([], Rejected e).
Proof. intros (k & -> & Hk & _). cbn [run]. rewrite Hk. reflexivity. Qed.

(** C6. Provisioning starts with the existence check.  When the check
    succeeds, provisioning is fulfilled with its answer and no bucket is
    created.  When the check fails, whatever the error, the error is
    dropped and the creation is sent; the creation's outcome, a failure
    included, is the outcome of provisioning.  Every public operation on
    the instance then returns a promise that, with [this.q] rejected, sends
    nothing and is rejected with the same error. *)
Theorem provisioning_checks_then_creates this :
  initialised this ->
  exists (o : object) name provision,
    bucket (options this) = VObj o /\ o !! "Bucket" = Some name /\
    createBucket this (bucket (options this)) = Ok provision /\
    q this = Some provision /\
    sending provision = [headBucket name] /\
    (forall s3 any ok,
       s3 (headBucket name) = Fulfilled ok ->
       run s3 any provision = ([headBucket name], Fulfilled ok)) /\
    (forall s3 any e,
       s3 (headBucket name) = Rejected e ->
       run s3 any provision =
         ([headBucket name; Aws.createBucket (VObj o)],
          s3 (Aws.createBucket (VObj o)))) /\
    (forall c, exists t,
       invoke this c = Ok t /\
       forall s3 e, task_run s3 (Rejected e) t = ([], Some e)).
Proof.
  intros Hinit.
  destruct (initialised_inv _ Hinit) as (o & name & client & Ho & Hname & _ & _ & Hs3 & Hq).
  exists o, name, (provisioning name o).
  split; [exact Ho|]. split; [exact Hname|]. split.
  { rewrite Ho. unfold createBucket, this_s3_send, this_s3. rewrite Hs3. cbn [member].
    rewrite !result_bind_Ok, (get_Some _ _ _ Hname). reflexivity. }
  split; [exact Hq|]. split; [reflexivity|]. split; [|split].
  - intros s3 any ok Hhead. cbn. rewrite Hhead. reflexivity.
  - intros s3 any e Hhead. cbn. rewrite Hhead. cbn.
    destruct (s3 (Aws.createBucket (VObj o))); reflexivity.
  - intros c. destruct (invoke_initialised this c Hinit) as [t Ht].
    exists t. split; [exact Ht|]. intros s3 e.
    pose proof (invoke_chained this c t Ht) as Hchained.
    destruct t as [A p]. cbn [task_run].
    rewrite (chained_on_q_rejected p s3 e Hchained). reflexivity.
Qed.

Lemma accesses_only_sending {A} (p : promise A) :
  accesses_only p -> Forall (fun r => is_storage_access r = true) (sending p).
Proof. intros [out|r k Hr _]; cbn [sending]; auto. Qed.

Lemma accesses_only_pending_inv {A} r (k : outcome response -> promise A) :
  accesses_only (Pending r k) ->
  is_storage_access r = true /\ forall out, accesses_only (k out).
Proof. inversion 1; subst; auto. Qed.

Lemma chained_on_q_sending {A} (p : promise A) : chained_on_q p -> sending p = [].
Proof. intros (k & -> & _). reflexivity. Qed.

Lemma not_resolved_pending r k : ~ resolved (Pending r k).
Proof. intros [v Hv]. discriminate. Qed.

Lemma task_ok_pending r k q' t : task_ok (Pending r k) t -> task_ok q' t.
Proof.
  destruct t as [A p]. cbn [task_ok].
  intros [H|[Hacc [H|H]]]; [left; exact H | | right; auto].
  destruct (not_resolved_pending r k H).
Qed.

Lemma invariant_started this s0 :
  initialised this -> started this = Some s0 ->
  exists (o : object) name,
    bucket (options this) = VObj o /\ o !! "Bucket" = Some name /\
    invariant name o s0.
Proof.
  intros Hinit Hs0.
  destruct (initialised_inv _ Hinit) as (o & name & client & Ho & Hname & _ & _ & _ & Hq).
  unfold started in Hs0. rewrite Hq in Hs0. cbn in Hs0. injection Hs0 as <-.
  exists o, name. split; [exact Ho|]. split; [exact Hname|].
  exists [headBucket name], []. cbn.
  split; [reflexivity|]. split; [constructor|]. split; [constructor|].
  split; [congruence | constructor].
Qed.

(** Closes a goal about [sent s] with the equation that gives it. *)
Ltac use_sent :=
  match goal with
  | H : _ = sent _ |- _ => rewrite <- H; reflexivity
  | H : sent _ = _ |- _ => rewrite H; reflexivity
  end.

Lemma invariant_step this name o s s' :
  invariant name o s -> step this s s' -> invariant name o s'.
Proof.
  intros (provision & accesses & Hsent & Hstage & Hacc & Hres & Htasks) Hstep.
  destruct Hstep as [s c t Hinvoke | s r k out Hq | s i A k out Hi Hq | s i A r k out Hi];
    unfold invariant; cbn [this_q tasks sent].
  - (* a call *)
    pose proof (invoke_chained this c t Hinvoke) as Hchained.
    exists provision, accesses. destruct t as [A p]. cbn [task_sending].
    rewrite (chained_on_q_sending p Hchained), List.app_nil_r.
    split; [exact Hsent|]. split; [exact Hstage|]. split; [exact Hacc|].
    split; [exact Hres|]. apply Forall_app. split; [exact Htasks|].
    constructor; [left; exact Hchained | constructor].
  - (* the provider answers the call of [this.q] *)
    assert (accesses = []) as ->.
    { destruct accesses as [|a accesses]; [reflexivity|].
      exfalso. rewrite Hq in Hres.
      apply (not_resolved_pending r k). apply Hres. discriminate. }
    rewrite List.app_nil_r in Hsent.
    assert (Forall (task_ok (k out)) (tasks s)) as Htasks'.
    { rewrite Hq in Htasks. eapply Forall_impl; [exact Htasks|].
      intros t. apply task_ok_pending. }
    rewrite Hq in Hstage. inversion Hstage; subst; clear Hstage.
    + destruct out as [ok|e]; cbn [sending send].
      * exists [headBucket name], [].
        split; [use_sent|].
        split; [constructor|]. split; [constructor|].
        split; [congruence | exact Htasks'].
      * exists [headBucket name; Aws.createBucket (VObj o)], [].
        split; [use_sent|].
        split; [constructor|]. split; [constructor|].
        split; [congruence | exact Htasks'].
    + cbn [sending].
      exists [headBucket name; Aws.createBucket (VObj o)], [].
      split; [use_sent|].
      split; [constructor|]. split; [constructor|].
      split; [congruence | exact Htasks'].
  - (* a promise chained on [this.q] runs its callback *)
    pose proof (Forall_lookup_1 _ _ _ _ Htasks Hi) as Hok. cbn [task_ok] in Hok.
    destruct Hok as [(k' & Hk' & Hrej & Hful) | [Hbad _]]; [|inversion Hbad].
    injection Hk' as <-.
    destruct out as [v|e].
    + assert (resolved (this_q s)) as Hresolved by (rewrite Hq; eexists; reflexivity).
      exists provision, (accesses ++ sending (k (Fulfilled v))).
      split; [rewrite Hsent, List.app_assoc; reflexivity|].
      split; [exact Hstage|].
      split; [apply Forall_app; split;
              [exact Hacc | apply accesses_only_sending, Hful]|].
      split; [intros _; exact Hresolved|].
      apply Forall_insert; [exact Htasks|]. cbn [task_ok]. right. auto.
    + rewrite Hrej. cbn [sending]. rewrite List.app_nil_r.
      exists provision, accesses.
      split; [exact Hsent|]. split; [exact Hstage|]. split; [exact Hacc|].
      split; [exact Hres|].
      apply Forall_insert; [exact Htasks|]. cbn [task_ok]. right.
      split; [constructor | right; eexists; reflexivity].
  - (* the provider answers the call of an operation *)
    pose proof (Forall_lookup_1 _ _ _ _ Htasks Hi) as Hok. cbn [task_ok] in Hok.
    destruct Hok as [(k' & Hk' & _) | [Hpending Hresolved]]; [discriminate|].
    destruct Hresolved as [Hresolved | [out' Hbad]]; [|discriminate].
    destruct (accesses_only_pending_inv r k Hpending) as [_ Hk''].
    exists provision, (accesses ++ sending (k out)).
    split; [rewrite Hsent, List.app_assoc; reflexivity|].
    split; [exact Hstage|].
    split; [apply Forall_app; split;
            [exact Hacc | apply accesses_only_sending, Hk'']|].
    split; [intros _; exact Hresolved|].
    apply Forall_insert; [exact Htasks|]. cbn [task_ok]. right. auto.
Qed.

Lemma invariant_reachable this s :
  initialised this -> reachable this s ->
  exists (o : object) name,
    bucket (options this) = VObj o /\ o !! "Bucket" = Some name /\
    invariant name o s.
Proof.
  intros Hinit (s0 & Hs0 & Hsteps).
  destruct (invariant_started this s0 Hinit Hs0) as (o & name & Ho & Hname & Hinv).
  exists o, name. split; [exact Ho|]. split; [exact Hname|].
  clear Hs0. induction Hsteps as [s0 | s0 s1 s2 Hstep _ IH]; [exact Hinv|].
  apply IH. eapply invariant_step; eassumption.
Qed.

(** What one turn sends: nothing, or the creation right after the failed
    check, or storage accesses with [this.q] resolved. *)
Lemma step_sends this name o s s' :
  invariant name o s -> step this s s' ->
  exists new,
    sent s' = sent s ++ new /\
    (new = [] \/
     (new = [Aws.createBucket (VObj o)] /\ sent s = [headBucket name]) \/
     (Forall (fun r => is_storage_access r = true) new /\ resolved (this_q s))).
Proof.
  intros (provision & accesses & Hsent & Hstage & Hacc & Hres & Htasks) Hstep.
  destruct Hstep as [s c t Hinvoke | s r k out Hq | s i A k out Hi Hq | s i A r k out Hi];
    cbn [sent]; eexists; (split; [reflexivity|]).
  - left. pose proof (invoke_chained this c t Hinvoke) as Hchained.
    destruct t as [A p]. apply (chained_on_q_sending p Hchained).
  - assert (accesses = []) as ->.
    { destruct accesses as [|a accesses]; [reflexivity|].
      exfalso. rewrite Hq in Hres.
      apply (not_resolved_pending r k). apply Hres. discriminate. }
    rewrite List.app_nil_r in Hsent.
    rewrite Hq in Hstage. inversion Hstage; subst; clear Hstage.
    + destruct out as [ok|e]; cbn [sending send]; [left; reflexivity|].
      right. left. split; [reflexivity | use_sent].
    + left. reflexivity.
  - pose proof (Forall_lookup_1 _ _ _ _ Htasks Hi) as Hok. cbn [task_ok] in Hok.
    destruct Hok as [(k' & Hk' & Hrej & Hful) | [Hbad _]]; [|inversion Hbad].
    injection Hk' as <-.
    destruct out as [v|e].
    + right. right. split; [apply accesses_only_sending, Hful|].
      rewrite Hq. eexists. reflexivity.
    + left. rewrite Hrej. reflexivity.
  - pose proof (Forall_lookup_1 _ _ _ _ Htasks Hi) as Hok. cbn [task_ok] in Hok.
    destruct Hok as [(k' & Hk' & _) | [Hpending Hresolved]]; [discriminate|].
    destruct Hresolved as [Hresolved | [out' Hbad]]; [|discriminate].
    destruct (accesses_only_pending_inv r k Hpending) as [_ Hk''].
    right. right. split; [apply accesses_only_sending, Hk'' | exact Hresolved].
Qed.

Lemma storage_access_not_provisioning r :
  is_storage_access r = true -> is_provisioning r = false.
Proof. destruct r; cbn; congruence. Qed.

(** C1. On an initialised instance, in every state it can reach by calls
    of public operations and answers of the provider in any order: the
    calls sent so far are the existence check, then at most one creation,
    then storage accesses only, and storage accesses have been sent only
    if [this.q] has resolved; and the next turn sends a storage access
    only if [this.q] has resolved already, and a provisioning call only if
    it is the creation following the check, the check being all that was
    sent.  So no operation touches the storage before provisioning has
    resolved, and however many operations are called there is one
    existence check and at most one creation. *)
Theorem operations_wait_for_provisioning this s :
  initialised this -> reachable this s ->
  exists (o : object) name accesses,
    bucket (options this) = VObj o /\ o !! "Bucket" = Some name /\
    (sent s = headBucket name :: accesses \/
     sent s = headBucket name :: Aws.createBucket (VObj o) :: accesses) /\
    Forall (fun r => is_storage_access r = true) accesses /\
    (accesses <> [] -> resolved (this_q s)) /\
    (forall s', step this s s' ->
       exists new,
         sent s' = sent s ++ new /\
         (forall r, In r new -> is_storage_access r = true -> resolved (this_q s)) /\
         (forall r, In r new -> is_provisioning r = true ->
                    r = Aws.createBucket (VObj o) /\ sent s = [headBucket name])).
Proof.
  intros Hinit Hreach.
  destruct (invariant_reachable this s Hinit Hreach) as (o & name & Ho & Hname & Hinv).
  pose proof Hinv as (provision & accesses & Hsent & Hstage & Hacc & Hres & _).
  exists o, name, accesses. split; [exact Ho|]. split; [exact Hname|].
  split; [rewrite Hsent; inversion Hstage; subst; auto|].
  split; [exact Hacc|]. split; [exact Hres|].
  intros s' Hstep.
  destruct (step_sends this name o s s' Hinv Hstep) as (new & Hnew & Hcases).
  exists new. split; [exact Hnew|].
  destruct Hcases as [-> | [[-> Hfirst] | [Hall Hresolved]]].
  - split; intros r [].
  - split; intros r [<-|[]]; [discriminate | auto].
  - split; intros r Hin Hr; [exact Hresolved|].
    rewrite Forall_forall in Hall. apply list_elem_of_In in Hin.
    rewrite (storage_access_not_provisioning r (Hall r Hin)) in Hr. discriminate.
Qed.

End Provisioning.

Lemma provisioning_checks_then_creates_witness :
  exists (o : object) name provision,
    bucket (options foo_instance) = VObj o /\ o !! "Bucket" = Some name /\
    createBucket foo_instance (bucket (options foo_instance)) = Ok provision /\
    q foo_instance = Some provision /\
    sending provision = [headBucket name] /\
    (forall s3 any ok,
       s3 (headBucket name) = Fulfilled ok ->
       run s3 any provision = ([headBucket name], Fulfilled ok)) /\
    (forall s3 any e,
       s3 (headBucket name) = Rejected e ->
       run s3 any provision =
         ([headBucket name; Aws.createBucket (VObj o)],
          s3 (Aws.createBucket (VObj o)))) /\
    (forall c, exists t,
       invoke demo_getBuildId demo_normalizeFileName demo_getUpdatesJsonUrl
         demo_JSON_stringify Posix foo_instance c = Ok t /\
       forall s3 e, task_run s3 (Rejected e) t = ([], Some e)).
Proof.
  apply (provisioning_checks_then_creates demo_getBuildId demo_normalizeFileName
           demo_getUpdatesJsonUrl demo_JSON_stringify Posix foo_instance).
  exists foo_config. vm_compute. reflexivity.
Defined.

Lemma operations_wait_for_provisioning_witness :
  exists s,
    reachable demo_getBuildId demo_normalizeFileName demo_getUpdatesJsonUrl
      demo_JSON_stringify Posix foo_instance s /\
    sent s = [headBucket (VStr "foo"); listObjectsV2 (VStr "foo")] /\
    exists (o : object) name accesses,
      bucket (options foo_instance) = VObj o /\ o !! "Bucket" = Some name /\
      (sent s = headBucket name :: accesses \/
       sent s = headBucket name :: Aws.createBucket (VObj o) :: accesses) /\
      Forall (fun r => is_storage_access r = true) accesses /\
      (accesses <> [] -> resolved (this_q s)) /\
      (forall s',
         step demo_getBuildId demo_normalizeFileName demo_getUpdatesJsonUrl
           demo_JSON_stringify Posix foo_instance s s' ->
         exists new,
           sent s' = sent s ++ new /\
           (forall r, In r new -> is_storage_access r = true -> resolved (this_q s)) /\
           (forall r, In r new -> is_provisioning r = true ->
                      r = Aws.createBucket (VObj o) /\ sent s = [headBucket name])).
Proof.
  eassert (reachable demo_getBuildId demo_normalizeFileName demo_getUpdatesJsonUrl
             demo_JSON_stringify Posix foo_instance _) as Hreach.
  { eexists. split; [reflexivity|].
    eapply rtc_l.
    { eapply (step_call _ _ _ _ _ _ _ call_fetchBuildsList). reflexivity. }
    eapply rtc_l.
    { eapply step_provision with (o := Fulfilled (listing [])). reflexivity. }
    eapply rtc_l.
    { eapply step_wake with (i := 0%nat); reflexivity. }
    apply rtc_refl. }
  eexists. split; [exact Hreach|]. split; [reflexivity|].
  apply (operations_wait_for_provisioning demo_getBuildId demo_normalizeFileName
           demo_getUpdatesJsonUrl demo_JSON_stringify Posix foo_instance _).
  - exists foo_config. vm_compute. reflexivity.
  - exact Hreach.
Defined.

(* ===================================================================== *)
(** * Further properties of the class *)
(* ===================================================================== *)

(** ** Construction and initialisation *)

Section Construction.

Implicit Types (cmd : command_options) (options : transport_options).




Lemma merged_aws_again options :
  Object_assign (awsAuth options) (Some (merged_aws options)) = merged_aws options.
Proof.
  unfold merged_aws, Object_assign. destruct (aws options) as [src|].
  - rewrite <- (assoc_L (∪)), (idemp_L (∪)). reflexivity.
  - apply (idemp_L (∪)).
Qed.

(** [normalizeOptions] is idempotent: options it has produced pass it
    unchanged, so a second transport made from the same, already rewritten
    options object sees the same configuration. *)
Theorem normalizeOptions_idempotent cmd options normalized :
  normalizeOptions cmd options = Ok normalized ->
  normalizeOptions cmd normalized = Ok normalized.
Proof.
  rewrite normalizeOptions_unfold.
  destruct (truthy (get _ "accessKeyId")) eqn:Ha; cbn [negb]; [|discriminate].
  destruct (truthy (get _ "secretAccessKey")) eqn:Hs; cbn [negb]; [|discriminate].
  destruct (normalized_bucket _ _) as [b|e] eqn:Hb; [|discriminate].
  intros [= <-]. rewrite normalizeOptions_unfold.
  assert (merged_aws
            {| accessKeyId := accessKeyId options;
               secretAccessKey := secretAccessKey options;
               aws := Some (merged_aws options);
               bucket := b |} = merged_aws options) as Hm.
  { exact (merged_aws_again options). }
  rewrite Hm, Ha, Hs. cbn [negb bucket accessKeyId secretAccessKey].
  destruct (normalized_bucket_Ok _ _ _ Hb) as (o & v & -> & Hv & Ht).
  rewrite normalized_bucket_object, (get_Some _ _ _ Hv), Ht. reflexivity.
Qed.

Lemma normalizeOptions_idempotent_witness :
  exists normalized,
    normalizeOptions foo_config (transport foo_config) = Ok normalized /\
    normalizeOptions foo_config normalized = Ok normalized.
Proof.
  eexists. split; [vm_compute; reflexivity|].
  apply (normalizeOptions_idempotent foo_config (transport foo_config)).
  vm_compute. reflexivity.
Defined.

(** What the constructor leaves: the normalised options, no client and no
    provisioning promise yet. *)
Lemma constructed_inv cmd this :
  constructor cmd = Ok this ->
  commandOptions this = cmd /\
  aws (options this) = Some (merged_aws (transport cmd)) /\
  s3 this = None /\ q this = None /\
  exists (o : object) name,
    bucket (options this) = VObj o /\ o !! "Bucket" = Some name /\
    truthy name = true /\ options_bucket_Bucket this = Ok name.
Proof.
  intros Hc.
  destruct (normalized_bucket_Ok _ _ _ (constructor_Ok_bucket _ _ Hc))
    as (o & name & Ho & Hname & Ht).
  assert (options_bucket_Bucket this = Ok name) as Hb.
  { unfold options_bucket_Bucket. rewrite Ho. cbn [member].
    rewrite (get_Some _ _ _ Hname). reflexivity. }
  revert Hc Ho Hb. rewrite constructor_unfold, normalizeOptions_unfold.
  destruct (truthy (get _ "accessKeyId")); cbn [negb]; [|discriminate].
  destruct (truthy (get _ "secretAccessKey")); cbn [negb]; [|discriminate].
  destruct (normalized_bucket _ _) as [b|e]; [|discriminate].
  intros [= <-] Ho Hb. cbn in *. repeat split. eauto 6.
Qed.



(** An object given as [bucket] is kept as it is, with whatever creation
    options it carries besides [Bucket]: the existence check is made for
    its [Bucket] alone, and when the check fails the creation is called
    with the whole object. *)
Theorem bucket_descriptor_reaches_createBucket cmd (o : object) :
  credentials_set (transport cmd) ->
  bucket (transport cmd) = VObj o ->
  truthy (get o "Bucket") = true ->
  exists this provision,
    (fresh ← constructor cmd; init fresh) = Ok this /\
    bucket (options this) = VObj o /\
    q this = Some provision /\
    sending provision = [headBucket (get o "Bucket")] /\
    forall s3 any e,
      s3 (headBucket (get o "Bucket")) = Rejected e ->
      run s3 any provision =
        ([headBucket (get o "Bucket"); Aws.createBucket (VObj o)],
         s3 (Aws.createBucket (VObj o))).
Proof.
  intros Hcred Hb Ho.
  rewrite (constructor_credentials_set _ Hcred), Hb, normalized_bucket_object, Ho.
  rewrite !result_bind_Ok. unfold init, createBucket, this_s3. cbn [s3 options bucket].
  rewrite result_bind_Ok. cbn [member]. rewrite !result_bind_Ok.
  eexists _, _. split; [reflexivity|]. cbn [options bucket q].
  split; [reflexivity|]. split; [reflexivity|]. split; [reflexivity|].
  intros s3 any e Hhead. cbn. rewrite Hhead. cbn.
  destruct (s3 (Aws.createBucket (VObj o))); reflexivity.
Qed.

Lemma bucket_descriptor_reaches_createBucket_witness :
  exists this provision,
    (fresh ← constructor (config_with (VStr "AKIA") (VStr "secret") None
                            (VObj private_builds));
     init fresh) = Ok this /\
    bucket (options this) = VObj private_builds /\
    q this = Some provision /\
    sending provision = [headBucket (get private_builds "Bucket")] /\
    forall s3 any e,
      s3 (headBucket (get private_builds "Bucket")) = Rejected e ->
      run s3 any provision =
        ([headBucket (get private_builds "Bucket");
          Aws.createBucket (VObj private_builds)],
         s3 (Aws.createBucket (VObj private_builds))).
Proof.
  apply (bucket_descriptor_reaches_createBucket
           (config_with (VStr "AKIA") (VStr "secret") None (VObj private_builds))
           private_builds).
  - split; vm_compute; reflexivity.
  - reflexivity.
  - vm_compute. reflexivity.
Defined.

End Construction.

(** ** The public operations, one at a time *)

Section Operations.

Context {build json : Type}.
Variable getBuildId : build -> string.
Variable normalizeFileName : string -> string.
Variable getUpdatesJsonUrl : command_options -> result string.
Variable JSON_stringify : json -> string.
Variable host : platform.

Abbreviation invoke := (invoke getBuildId normalizeFileName getUpdatesJsonUrl JSON_stringify host).
Abbreviation getRemoteFilePath := (getRemoteFilePath getBuildId normalizeFileName host).
Abbreviation uploadFile := (uploadFile getBuildId normalizeFileName host).
Abbreviation pushUpdatesJson := (pushUpdatesJson getUpdatesJsonUrl JSON_stringify).
Abbreviation removeBuild := (removeBuild getBuildId).

(** Between [new] and [init()] every public operation throws, at the read
    of [this.q.then], and returns no promise. *)
Theorem operations_before_init_throw cmd this c :
  constructor cmd = Ok this ->
  invoke this c = Throw (TypeError "Cannot read property 'then' of undefined").
Proof.
  intros Hc.
  destruct (constructed_inv _ _ Hc) as (_ & _ & _ & Hq & o & name & _ & _ & _ & Hname).
  destruct c as [filePath b|data| |b]; cbn [EventLoop.invoke];
    unfold S3Transport.uploadFile, S3Transport.pushUpdatesJson, fetchBuildsList,
      S3Transport.removeBuild, this_q_then;
    rewrite Hname, Hq; reflexivity.
Qed.


(** [pushUpdatesJson]: nothing is sent when [this.q] is rejected; otherwise
    one [putObject] of the serialised data under the key [updates.json].
    The URL is asked of [getUpdatesJsonUrl] only after the upload has
    succeeded: when that throws, the promise is rejected although the
    manifest has been written. *)
Theorem pushUpdatesJson_puts_manifest this name data :
  initialised this ->
  options_bucket_Bucket this = Ok name ->
  exists p,
    pushUpdatesJson this data = Ok p /\
    (forall s3 v,
       run s3 (Fulfilled v) p =
         ([putObject "public-read" (Text (JSON_stringify data)) name "updates.json"],
          match s3 (putObject "public-read" (Text (JSON_stringify data)) name
                      "updates.json") with
          | Fulfilled _ =>
              match getUpdatesJsonUrl (commandOptions this) with
              | Ok url => Fulfilled url
              | Throw e => Rejected e
              end
          | Rejected e => Rejected e
          end)) /\
    (forall s3 e, run s3 (Rejected e) p = ([], Rejected e)).
Proof.
  intros Hinit Hname.
  destruct (initialised_inv _ Hinit) as (o & name' & client & _ & _ & _ & _ & Hs3 & Hq).
  unfold S3Transport.pushUpdatesJson, this_q_then, this_s3_send, this_s3.
  rewrite Hname, Hq, Hs3.
  eexists. split; [reflexivity|]. split.
  - intros s3 v. cbn. destruct (s3 _); [|reflexivity].
    destruct (getUpdatesJsonUrl _); reflexivity.
  - intros s3 e. reflexivity.
Qed.

(** A failed listing ends both listing operations: [fetchBuildsList] and
    [removeBuild] are rejected with the listing's error, and [removeBuild]
    sends no delete.  A failed delete rejects [removeBuild] with the
    delete's error, and neither call is repeated. *)
Theorem listing_and_delete_failures this name b (s3 : request -> outcome response)
    (v : response) :
  initialised this ->
  options_bucket_Bucket this = Ok name ->
  exists pl pr,
    fetchBuildsList this = Ok pl /\ removeBuild this b = Ok pr /\
    (forall e,
       s3 (listObjectsV2 name) = Rejected e ->
       run s3 (Fulfilled v) pl = ([listObjectsV2 name], Rejected e) /\
       run s3 (Fulfilled v) pr = ([listObjectsV2 name], Rejected e)) /\
    (forall r e,
       s3 (listObjectsV2 name) = Fulfilled r ->
       s3 (deleteObjects name
             (map (fun key => {| Key := key |}) (keys_of_build (getBuildId b) r)))
         = Rejected e ->
       run s3 (Fulfilled v) pr =
         ([listObjectsV2 name;
           deleteObjects name
             (map (fun key => {| Key := key |}) (keys_of_build (getBuildId b) r))],
          Rejected e)).
Proof.
  intros Hinit Hname.
  destruct (fetchBuildsList_run this name Hinit Hname) as (pl & Hpl & Hrunl & _).
  destruct (removeBuild_run getBuildId this name b Hinit Hname) as (pr & Hpr & Hrunr & _).
  exists pl, pr. split; [exact Hpl|]. split; [exact Hpr|]. split.
  - intros e He. rewrite Hrunl, Hrunr, He. auto.
  - intros r e Hr He. rewrite Hrunr, Hr. cbn zeta. rewrite He. reflexivity.
Qed.

Lemma hyphen_free_app (s t : string) :
  JsString.all (fun c => negb (Ascii.eqb c "-")) (s +:+ "-" +:+ t) = false.
Proof.
  rewrite all_app, (all_app _ "-" t). cbn. apply andb_false_r.
Qed.

(** A build identifier holds a hyphen. *)
Lemma is_build_identifier_hyphen id :
  is_build_identifier id ->
  JsString.all (fun c => negb (Ascii.eqb c "-")) id = false.
Proof. intros (a & b & c & d & -> & _). apply hyphen_free_app. Qed.

(** [removeBuild] for a build whose identifier has the form the listing
    recognises never deletes an object whose key holds no hyphen; in
    particular the manifest [updates.json] stays. *)
Theorem removeBuild_spares_manifest this name b (s3 : request -> outcome response)
    (v r : response) :
  initialised this ->
  options_bucket_Bucket this = Ok name ->
  is_build_identifier (getBuildId b) ->
  s3 (listObjectsV2 name) = Fulfilled r ->
  exists p objects,
    removeBuild this b = Ok p /\
    fst (run s3 (Fulfilled v) p) = [listObjectsV2 name; deleteObjects name objects] /\
    (forall key,
       JsString.all (fun c => negb (Ascii.eqb c "-")) key = true ->
       ~ In {| Key := key |} objects) /\
    ~ In {| Key := "updates.json" |} objects.
Proof.
  intros Hinit Hname Hid Hlist.
  destruct (removeBuild_run getBuildId this name b Hinit Hname) as (p & Hp & Hrun & _).
  exists p, (map (fun key => {| Key := key |}) (keys_of_build (getBuildId b) r)).
  split; [exact Hp|]. split; [rewrite Hrun, Hlist; reflexivity|].
  assert (forall key,
            JsString.all (fun c => negb (Ascii.eqb c "-")) key = true ->
            ~ In {| Key := key |}
                (map (fun key => {| Key := key |}) (keys_of_build (getBuildId b) r)))
    as Hspared.
  { intros key Hkey Hin. apply in_map_iff in Hin as (key' & [= ->] & Hin).
    apply keys_of_build_In in Hin as [_ [rest ->]].
    rewrite all_app, (is_build_identifier_hyphen _ Hid) in Hkey. discriminate. }
  split; [exact Hspared|]. apply Hspared. reflexivity.
Qed.

Lemma startsWith_empty key : startsWith key "" = true.
Proof. apply startsWith_spec. exists key. reflexivity. Qed.

Lemma keys_of_build_empty r :
  map (fun key => {| Key := key |}) (keys_of_build "" r) = Contents r.
Proof.
  unfold keys_of_build. induction (Contents r) as [|[key] objects IH]; [reflexivity|].
  cbn [map List.filter Key]. rewrite startsWith_empty. cbn [map]. rewrite IH.
  reflexivity.
Qed.

(** With an empty build identifier the prefix test holds of every key:
    [removeBuild] then deletes every object of the listing, the manifest
    included. *)
Theorem removeBuild_empty_identifier_deletes_all this name b
    (s3 : request -> outcome response) (v r : response) :
  initialised this ->
  options_bucket_Bucket this = Ok name ->
  getBuildId b = "" ->
  s3 (listObjectsV2 name) = Fulfilled r ->
  exists p,
    removeBuild this b = Ok p /\
    fst (run s3 (Fulfilled v) p) =
      [listObjectsV2 name; deleteObjects name (Contents r)].
Proof.
  intros Hinit Hname Hid Hlist.
  destruct (removeBuild_run getBuildId this name b Hinit Hname) as (p & Hp & Hrun & _).
  exists p. split; [exact Hp|]. rewrite Hrun, Hlist, Hid. cbn [fst].
  rewrite keys_of_build_empty. reflexivity.
Qed.

Lemma all_impl (p1 p2 : ascii -> bool) (s : string) :
  (forall c, p1 c = true -> p2 c = true) ->
  JsString.all p1 s = true -> JsString.all p2 s = true.
Proof.
  intros Himpl. induction s as [|c s IH]; [reflexivity|]. cbn [JsString.all].
  rewrite !andb_true_iff. intros [Hc Hs]. auto.
Qed.

Lemma word_or_dot_char_not_slash c :
  word_or_dot_char c = true -> negb (Ascii.eqb c "/") = true.
Proof.
  destruct (Ascii.eqb_spec c "/") as [->|_]; [|reflexivity].
  vm_compute. discriminate.
Qed.

Lemma word_char_not_slash c :
  word_char c = true -> negb (Ascii.eqb c "/") = true.
Proof.
  intros Hc. apply word_or_dot_char_not_slash. unfold word_or_dot_char.
  rewrite Hc. reflexivity.
Qed.

(** A build identifier is a segment that [path.posix.join] leaves alone. *)
Lemma is_build_identifier_plain id : is_build_identifier id -> plain_segment id.
Proof.
  intros Hid. pose proof (is_build_identifier_hyphen id Hid) as Hhyphen.
  destruct Hid as (a & b & c & d & -> & [_ Ha] & [_ Hb] & [_ Hc] & [_ Hd]).
  split; [intros H; rewrite H in Hhyphen; discriminate|].
  split; [intros H; rewrite H in Hhyphen; discriminate|].
  split; [intros H; rewrite H in Hhyphen; discriminate|].
  rewrite !all_app.
  rewrite (all_impl _ _ a word_char_not_slash Ha),
    (all_impl _ _ b word_char_not_slash Hb),
    (all_impl _ _ c word_char_not_slash Hc),
    (all_impl _ _ d word_or_dot_char_not_slash Hd).
  reflexivity.
Qed.

Lemma first_segment_app id rest :
  JsString.all (fun c => negb (Ascii.eqb c "/")) id = true ->
  first_segment (id +:+ "/" +:+ rest) = id.
Proof.
  intros Hid. unfold first_segment, split, at_index.
  rewrite split_go_app by exact Hid.
  rewrite str_app_cons, str_app_nil_l. cbn [split_go]. rewrite Ascii.eqb_refl.
  cbn. change (String.rev_app id "") with (String.rev id). apply rev_involutive.
Qed.

(** Upload, listing and removal agree on a build: for a build whose
    identifier has the form the listing recognises and a plain file name,
    the key [uploadFile] writes has the identifier as first segment; in any
    listing that holds this key [fetchBuildsList] reports the build and
    [removeBuild] selects the key. *)
Theorem uploaded_key_is_listed_and_removed filePath b (r : response) :
  is_build_identifier (getBuildId b) ->
  plain_segment (normalizeFileName (basename host filePath)) ->
  In (getRemoteFilePath filePath b) (map Key (Contents r)) ->
  first_segment (getRemoteFilePath filePath b) = getBuildId b /\
  In (getBuildId b) (builds_of_response r) /\
  In (getRemoteFilePath filePath b) (keys_of_build (getBuildId b) r).
Proof.
  intros Hid Hfile Hin.
  pose proof (is_build_identifier_plain _ Hid) as Hplain.
  assert (getRemoteFilePath filePath b
          = getBuildId b +:+ "/" +:+ normalizeFileName (basename host filePath))
    as Hkey.
  { unfold S3Transport.getRemoteFilePath. apply posix_join_plain; assumption. }
  assert (first_segment (getRemoteFilePath filePath b) = getBuildId b) as Hfirst.
  { rewrite Hkey. apply first_segment_app. apply Hplain. }
  split; [exact Hfirst|]. split.
  - unfold builds_of_response.
    rewrite filter_indexed_first_seen, first_seen_In, filter_In, build_id_pattern_spec.
    split; [|exact Hid]. rewrite <- Hfirst. apply in_map. exact Hin.
  - apply keys_of_build_In. split; [exact Hin|].
    eexists. exact Hkey.
Qed.

Lemma skip_separators_component is_sep (s t : string) :
  s <> "" -> JsString.all (fun c => negb (is_sep c)) s = true ->
  skip_separators is_sep (s +:+ t) = s +:+ t.
Proof.
  destruct s as [|c s]; [congruence|]. intros _ Hs.
  cbn in Hs. apply andb_true_iff in Hs as [Hc _]. apply negb_true_iff in Hc.
  rewrite str_app_cons. cbn [skip_separators]. rewrite Hc. reflexivity.
Qed.

Lemma last_component_app is_sep (s : string) sep (t acc : string) :
  is_sep sep = true ->
  JsString.all (fun c => negb (is_sep c)) s = true ->
  last_component is_sep (s +:+ String sep t) acc = String.rev_app s acc.
Proof.
  intros Hsep. revert acc. induction s as [|c s IH]; intros acc Hs.
  - rewrite str_app_nil_l. cbn [last_component]. rewrite Hsep. reflexivity.
  - cbn in Hs. apply andb_true_iff in Hs as [Hc Hs]. apply negb_true_iff in Hc.
    rewrite str_app_cons. cbn [last_component String.rev_app]. rewrite Hc.
    apply IH, Hs.
Qed.

(** The base name of a directory, a separator and a bare name is the
    name. *)
Lemma basename_scan_app is_sep dir sep name :
  is_sep sep = true -> name <> "" ->
  JsString.all (fun c => negb (is_sep c)) name = true ->
  basename_scan is_sep (dir +:+ String sep name) = name.
Proof.
  intros Hsep Hne Hname. unfold basename_scan.
  assert (String.rev (dir +:+ String sep name)
          = String.rev name +:+ String sep (String.rev dir)) as ->.
  { unfold String.rev at 1. rewrite rev_app_app. cbn [String.rev_app].
    apply rev_app_acc. }
  assert (String.rev name <> "") as Hrev.
  { intros H. apply Hne. rewrite <- (rev_involutive name), H. reflexivity. }
  rewrite skip_separators_component by (try apply all_rev; assumption).
  rewrite last_component_app by (try apply all_rev; assumption).
  apply rev_involutive.
Qed.

Lemma win32_separator_cases sep :
  is_win32_separator sep = true -> sep = "/"%char \/ sep = "\"%char.
Proof.
  unfold is_win32_separator. rewrite orb_true_iff.
  intros [H|H]; apply Ascii.eqb_eq in H; auto.
Qed.

Lemma basename_app dir sep name :
  is_separator host sep = true -> name <> "" ->
  basename host name = name ->
  basename host (dir +:+ String sep name) = name.
Proof.
  intros Hsep Hne Hbase.
  destruct (basename_spec host name) as (_ & _ & _ & Hall & _).
  rewrite Hbase in Hall. destruct host; cbn [basename is_separator] in *.
  - apply basename_scan_app; assumption.
  - unfold win32_basename.
    assert (is_windows_device_root sep && true = false /\ Ascii.eqb sep ":" = false)
      as [Hroot Hcolon].
    { destruct (win32_separator_cases sep Hsep) as [-> | ->]; split; reflexivity. }
    destruct dir as [|d [|c dir]].
    + rewrite str_app_nil_l. destruct name as [|n name]; [congruence|].
      rewrite andb_true_r in Hroot. rewrite Hroot. cbn [andb].
      apply (basename_scan_app is_win32_separator "" sep); assumption.
    + rewrite !str_app_cons, str_app_nil_l. rewrite Hcolon, andb_false_r.
      apply (basename_scan_app is_win32_separator (String d "") sep); assumption.
    + rewrite !str_app_cons.
      destruct (is_windows_device_root d && Ascii.eqb c ":").
      * apply basename_scan_app; assumption.
      * apply (basename_scan_app is_win32_separator (String d (String c dir)) sep);
          assumption.
Qed.

(** The remote path forgets the directory: a file reached through any
    directory gets the key of its bare name, so files of one build with
    the same name in different directories are written to the same
    object. *)
Theorem getRemoteFilePath_forgets_directory dir sep name b :
  is_separator host sep = true ->
  name <> "" ->
  basename host name = name ->
  getRemoteFilePath (dir +:+ String sep name) b = getRemoteFilePath name b.
Proof.
  intros Hsep Hne Hbase. unfold S3Transport.getRemoteFilePath.
  rewrite (basename_app dir sep name Hsep Hne Hbase), Hbase. reflexivity.
Qed.

End Operations.

Lemma operations_before_init_throw_witness :
  exists fresh,
    constructor foo_config = Ok fresh /\
    invoke demo_getBuildId demo_normalizeFileName demo_getUpdatesJsonUrl
      demo_JSON_stringify Posix fresh call_fetchBuildsList
    = Throw (TypeError "Cannot read property 'then' of undefined").
Proof.
  destruct (constructor foo_config) as [fresh|e] eqn:Hc;
    [|vm_compute in Hc; discriminate].
  exists fresh. split; [reflexivity|].
  apply (operations_before_init_throw demo_getBuildId demo_normalizeFileName
           demo_getUpdatesJsonUrl demo_JSON_stringify Posix foo_config fresh).
  exact Hc.
Defined.


Lemma pushUpdatesJson_puts_manifest_witness :
  exists p,
    pushUpdatesJson missing_getUpdatesJsonUrl demo_JSON_stringify foo_instance tt = Ok p /\
    run (provider_listing []) (Fulfilled (listing [])) p =
      ([putObject "public-read" (Text "{}") (VStr "foo") "updates.json"],
       Rejected (Error "no updates.json url")).
Proof.
  destruct (pushUpdatesJson_puts_manifest missing_getUpdatesJsonUrl demo_JSON_stringify
              foo_instance (VStr "foo") tt)
    as (p & Hp & Hrun & _).
  - exists foo_config. vm_compute. reflexivity.
  - vm_compute. reflexivity.
  - exists p. split; [exact Hp|]. rewrite Hrun. vm_compute. reflexivity.
Defined.

Lemma listing_and_delete_failures_witness :
  exists pl pr,
    fetchBuildsList foo_instance = Ok pl /\
    removeBuild release_getBuildId foo_instance tt = Ok pr /\
    run provider_denied (Fulfilled (listing [])) pl =
      ([listObjectsV2 (VStr "foo")], Rejected (ServiceError "AccessDenied")) /\
    run provider_denied (Fulfilled (listing [])) pr =
      ([listObjectsV2 (VStr "foo")], Rejected (ServiceError "AccessDenied")).
Proof.
  destruct (listing_and_delete_failures release_getBuildId foo_instance (VStr "foo") tt
              provider_denied (listing []))
    as (pl & pr & Hpl & Hpr & Hlist & _).
  - exists foo_config. vm_compute. reflexivity.
  - vm_compute. reflexivity.
  - exists pl, pr. split; [exact Hpl|]. split; [exact Hpr|].
    apply Hlist. reflexivity.
Defined.

Lemma release_identifier_form : is_build_identifier "win32-x64-prod-v1.0.0".
Proof.
  exists "win32", "x64", "prod", "v1.0.0".
  split; [reflexivity|]. repeat split; try discriminate; vm_compute; reflexivity.
Qed.

Lemma removeBuild_spares_manifest_witness :
  exists p objects,
    removeBuild release_getBuildId foo_instance tt = Ok p /\
    fst (run (provider_listing ["updates.json"; "win32-x64-prod-v1.0.0/app.exe"])
             (Fulfilled (listing [])) p)
      = [listObjectsV2 (VStr "foo"); deleteObjects (VStr "foo") objects] /\
    ~ In {| Key := "updates.json" |} objects.
Proof.
  destruct (removeBuild_spares_manifest release_getBuildId foo_instance (VStr "foo") tt
              (provider_listing ["updates.json"; "win32-x64-prod-v1.0.0/app.exe"])
              (listing [])
              (listing ["updates.json"; "win32-x64-prod-v1.0.0/app.exe"]))
    as (p & objects & Hp & Hsent & _ & Hmanifest).
  - exists foo_config. vm_compute. reflexivity.
  - vm_compute. reflexivity.
  - exact release_identifier_form.
  - reflexivity.
  - exists p, objects. auto.
Defined.

Lemma removeBuild_empty_identifier_deletes_all_witness :
  exists p,
    removeBuild (fun _ : unit => "") foo_instance tt = Ok p /\
    fst (run (provider_listing ["updates.json"; "win32-x64-prod-v1.0.0/app.exe"])
             (Fulfilled (listing [])) p)
      = [listObjectsV2 (VStr "foo");
         deleteObjects (VStr "foo")
           (Contents (listing ["updates.json"; "win32-x64-prod-v1.0.0/app.exe"]))].
Proof.
  apply (removeBuild_empty_identifier_deletes_all (fun _ : unit => "") foo_instance
           (VStr "foo") tt
           (provider_listing ["updates.json"; "win32-x64-prod-v1.0.0/app.exe"])
           (listing [])
           (listing ["updates.json"; "win32-x64-prod-v1.0.0/app.exe"])).
  - exists foo_config. vm_compute. reflexivity.
  - vm_compute. reflexivity.
  - reflexivity.
  - reflexivity.
Defined.

Lemma uploaded_key_is_listed_and_removed_witness :
  first_segment (getRemoteFilePath release_getBuildId demo_normalizeFileName Posix
                   "/out/app.exe" tt) = release_getBuildId tt /\
  In (release_getBuildId tt)
     (builds_of_response (listing ["updates.json"; "win32-x64-prod-v1.0.0/app.exe"])) /\
  In (getRemoteFilePath release_getBuildId demo_normalizeFileName Posix "/out/app.exe" tt)
     (keys_of_build (release_getBuildId tt)
        (listing ["updates.json"; "win32-x64-prod-v1.0.0/app.exe"])).
Proof.
  apply (uploaded_key_is_listed_and_removed release_getBuildId demo_normalizeFileName
           Posix "/out/app.exe" tt
           (listing ["updates.json"; "win32-x64-prod-v1.0.0/app.exe"])).
  - exact release_identifier_form.
  - split; [discriminate|]. split; [discriminate|]. split; [discriminate|].
    vm_compute. reflexivity.
  - right. left. vm_compute. reflexivity.
Defined.

Lemma getRemoteFilePath_forgets_directory_witness :
  getRemoteFilePath release_getBuildId demo_normalizeFileName Win32
    ("C:\out\x64" +:+ String "\" "app.exe") tt
  = getRemoteFilePath release_getBuildId demo_normalizeFileName Win32 "app.exe" tt.
Proof.
  apply (getRemoteFilePath_forgets_directory release_getBuildId demo_normalizeFileName
           Win32 "C:\out\x64" "\"%char "app.exe" tt).
  - reflexivity.
  - discriminate.
  - vm_compute. reflexivity.
Defined.

(** ** Instances at work *)

Section AtWork.

Context {build json : Type}.
Variable getBuildId : build -> string.
Variable normalizeFileName : string -> string.
Variable getUpdatesJsonUrl : command_options -> result string.
Variable JSON_stringify : json -> string.
Variable host : platform.

Abbreviation step := (step getBuildId normalizeFileName getUpdatesJsonUrl JSON_stringify host).
Abbreviation reachable :=
  (reachable getBuildId normalizeFileName getUpdatesJsonUrl JSON_stringify host).

(** Once settled, [this.q] stays as it is. *)
Lemma settled_stable this s s' out :
  step this s s' -> this_q s = Settled out -> this_q s' = Settled out.
Proof.
  intros Hstep Hq. destruct Hstep; cbn [this_q]; try exact Hq. congruence.
Qed.

Lemma settled_stable_rtc this s s' out :
  rtc (step this) s s' -> this_q s = Settled out -> this_q s' = Settled out.
Proof.
  induction 1 as [|s0 s1 s2 Hstep _ IH]; [auto|].
  intros Hq. apply IH. eapply settled_stable; eassumption.
Qed.

Lemma reachable_rtc this s s' :
  reachable this s -> rtc (step this) s s' -> reachable this s'.
Proof.
  intros (s0 & Hs0 & Hsteps) Hmore. exists s0. split; [exact Hs0|].
  etrans; eassumption.
Qed.

(** When provisioning has failed, the existence check and the creation are
    all that was ever sent, and whatever is called or answered afterwards
    nothing more is sent: [this.q] stays rejected and the storage is never
    accessed. *)
Theorem failed_provisioning_blocks_storage this s e :
  initialised this -> reachable this s ->
  this_q s = Settled (Rejected e) ->
  exists (o : object) name,
    bucket (options this) = VObj o /\ o !! "Bucket" = Some name /\
    sent s = [headBucket name; Aws.createBucket (VObj o)] /\
    forall s', rtc (step this) s s' ->
               this_q s' = Settled (Rejected e) /\ sent s' = sent s.
Proof.
  intros Hinit Hreach Hq.
  assert (forall s1, reachable this s1 -> this_q s1 = Settled (Rejected e) ->
            exists (o : object) name,
              bucket (options this) = VObj o /\ o !! "Bucket" = Some name /\
              sent s1 = [headBucket name; Aws.createBucket (VObj o)]) as Hsent.
  { intros s1 Hreach1 Hq1.
    destruct (invariant_reachable _ _ _ _ _ this s1 Hinit Hreach1)
      as (o & name & Ho & Hname & provision & accesses & Hs & Hstage & _ & Hres & _).
    exists o, name. split; [exact Ho|]. split; [exact Hname|].
    assert (accesses = []) as ->.
    { destruct accesses as [|a accesses]; [reflexivity|].
      destruct Hres as [v Hv]; [discriminate|]. rewrite Hq1 in Hv. discriminate. }
    rewrite Hs, List.app_nil_r. rewrite Hq1 in Hstage.
    inversion Hstage; subst; reflexivity. }
  destruct (Hsent s Hreach Hq) as (o & name & Ho & Hname & Hs).
  exists o, name. split; [exact Ho|]. split; [exact Hname|]. split; [exact Hs|].
  intros s' Hsteps.
  pose proof (settled_stable_rtc this s s' _ Hsteps Hq) as Hq'.
  split; [exact Hq'|].
  destruct (Hsent s' (reachable_rtc this s s' Hreach Hsteps) Hq')
    as (o' & name' & Ho' & Hname' & Hs').
  rewrite Ho in Ho'. injection Ho' as <-. rewrite Hname in Hname'.
  injection Hname' as <-. rewrite Hs, Hs'. reflexivity.
Qed.




End AtWork.

Lemma failed_provisioning_blocks_storage_witness :
  exists s,
    reachable demo_getBuildId demo_normalizeFileName demo_getUpdatesJsonUrl
      demo_JSON_stringify Posix foo_instance s /\
    length (tasks s) = 1 /\
    exists (o : object) name,
      bucket (options foo_instance) = VObj o /\ o !! "Bucket" = Some name /\
      sent s = [headBucket name; Aws.createBucket (VObj o)] /\
      forall s',
        rtc (step demo_getBuildId demo_normalizeFileName demo_getUpdatesJsonUrl
               demo_JSON_stringify Posix foo_instance) s s' ->
        this_q s' = Settled (Rejected (ServiceError "AccessDenied")) /\
        sent s' = sent s.
Proof.
  eassert (reachable demo_getBuildId demo_normalizeFileName demo_getUpdatesJsonUrl
             demo_JSON_stringify Posix foo_instance _) as Hreach.
  { eexists. split; [reflexivity|].
    eapply rtc_l.
    { eapply (step_call _ _ _ _ _ _ _ (call_uploadFile "/out/app.exe" tt)). reflexivity. }
    eapply rtc_l.
    { eapply step_provision with (o := Rejected (ServiceError "NotFound")). reflexivity. }
    eapply rtc_l.
    { eapply step_provision with (o := Rejected (ServiceError "AccessDenied")).
      reflexivity. }
    apply rtc_refl. }
  eexists. split; [exact Hreach|]. split; [reflexivity|].
  apply (failed_provisioning_blocks_storage demo_getBuildId demo_normalizeFileName
           demo_getUpdatesJsonUrl demo_JSON_stringify Posix foo_instance _
           (ServiceError "AccessDenied")).
  - exists foo_config. vm_compute. reflexivity.
  - exact Hreach.
  - reflexivity.
Defined.


(** ** Remote paths without a file name *)

Section EmptyFileName.

Context {build : Type}.
Variable getBuildId : build -> string.
Variable normalizeFileName : string -> string.
Variable host : platform.

Lemma split_plain sep s :
  JsString.all (fun c => negb (Ascii.eqb c sep)) s = true -> split sep s = [s].
Proof.
  intros Hs. unfold split.
  pose proof (split_go_app sep "" s "" Hs) as H. rewrite str_app_nil_r in H.
  rewrite H. cbn [split_go]. change (String.rev_app s "") with (String.rev s).
  rewrite rev_involutive. reflexivity.
Qed.

Lemma posix_normalize_plain s : plain_segment s -> posix_normalize s = s.
Proof.
  intros (Hs0 & Hs1 & Hs2 & Hs).
  unfold posix_normalize, normalizeString.
  rewrite (eqb_false s "" Hs0), (split_plain "/" s Hs). cbn [fold_left].
  unfold normalize_step.
  rewrite (eqb_false s "" Hs0), (eqb_false s "." Hs1), (eqb_false s ".." Hs2).
  cbn [orb rev app JsString.join]. rewrite (eqb_false s "" Hs0).
  rewrite (ends_with_char_absent "/" s Hs). cbn [andb negb].
  destruct s as [|c s]; [congruence|].
  cbn in Hs. apply andb_true_iff in Hs as [Hc _]. apply negb_true_iff in Hc.
  rewrite Hc. reflexivity.
Qed.

(** When nothing is left of the file name, as for the empty path or a
    path of separators only with a normalisation that keeps the empty
    name, the remote path is the build identifier alone, without a slash:
    the object is written at the bucket's root under the build's name. *)
Theorem getRemoteFilePath_without_file_name filePath b :
  plain_segment (getBuildId b) ->
  normalizeFileName (basename host filePath) = "" ->
  getRemoteFilePath getBuildId normalizeFileName host filePath b = getBuildId b /\
  first_segment (getRemoteFilePath getBuildId normalizeFileName host filePath b)
    = getBuildId b.
Proof.
  intros Hid Hname.
  assert (getRemoteFilePath getBuildId normalizeFileName host filePath b = getBuildId b)
    as Hkey.
  { unfold getRemoteFilePath, posix_join. rewrite Hname. cbn [List.filter].
    destruct Hid as (Hid0 & Hid').
    rewrite (eqb_false _ "" Hid0). cbn [negb String.eqb JsString.join].
    apply posix_normalize_plain. split; assumption. }
  split; [exact Hkey|]. rewrite Hkey.
  unfold first_segment, at_index. rewrite split_plain by apply Hid. reflexivity.
Qed.

End EmptyFileName.

Lemma getRemoteFilePath_without_file_name_witness :
  getRemoteFilePath release_getBuildId demo_normalizeFileName Posix "///" tt
    = release_getBuildId tt /\
  first_segment (getRemoteFilePath release_getBuildId demo_normalizeFileName Posix "///" tt)
    = release_getBuildId tt.
Proof.
  apply (getRemoteFilePath_without_file_name release_getBuildId demo_normalizeFileName
           Posix "///" tt).
  - split; [discriminate|]. split; [discriminate|]. split; [discriminate|].
    vm_compute. reflexivity.
  - vm_compute. reflexivity.
Defined.
